(** * snaas: the reaction entity model and the in-memory user service

    A shallow embedding of the reaction package's model (its types,
    [MatchOpts], [Validate] and [Map.ToList]) and of [service/user/mem.go]
    (the memory backed user service), followed by the properties the
    specification states about them. *)

From Stdlib Require Import ZArith Lia.
From stdpp Require Import base option list sorting strings gmap fin_maps.

Local Open Scope Z_scope.

(** ** Machine integers

    Go's [int] is taken as the 64-bit two's-complement integer and [uint] as
    the 64-bit unsigned one. Values are carried as [Z]; a conversion or an
    addition that can leave the range has its wrap-around written out. *)

Module gonum.

Definition wrap_int (z : Z) : Z := (z + 2 ^ 63) mod 2 ^ 64 - 2 ^ 63.

(** [int(x)] for an unsigned [x]. *)
Definition int_of_uint (u : Z) : Z := wrap_int u.

(** [a + b] on [int]. *)
Definition int_add (a b : Z) : Z := wrap_int (a + b).

(** [len(l)], an [int]. *)
Definition len {A} (l : list A) : Z := Z.of_nat (length l).

End gonum.

(** ** [time.Time]

    An instant (nanoseconds counted from the zero time, January 1 of year 1,
    00:00 UTC) together with the location it is displayed in. A monotonic
    clock reading is not part of the model: [UTC()], through which every
    time the service stores has gone, strips it. *)

Module time.

Inductive Location :=
| UTCLoc
| Zone (name : string) (offset : Z).

Record Time := { instant : Z; location : Location }.

Definition zero : Time := {| instant := 0; location := UTCLoc |}.

(** [t.UTC()] keeps the instant and sets the location. *)
Definition UTC (t : Time) : Time := {| instant := instant t; location := UTCLoc |}.

(** [t.After(u)]. *)
Definition After (t u : Time) : bool := instant u <? instant t.

(** [t.IsZero()]. *)
Definition IsZero (t : Time) : bool := instant t =? 0.

End time.

(** ** Errors ([github.com/tapglue/snaas/error])

    [Wrap err format args] keeps the wrapped sentinel, the format string and
    its arguments; the text is never rendered. *)

Module serr.

(** [ErrNotFound] stands for the user package's own sentinel of that name,
    [ErrExternal] for an error of a collaborator outside the sources. *)
Inductive error :=
| ErrInvalidQuery
| ErrInvalidReaction
| ErrNotFound
| ErrExternal (descr : string)
| Wrap (err : error) (format : string) (args : list Z).

(** What a call hands back: a value, an error value, or a run-time panic. *)
Inductive result (A : Type) :=
| Ok (a : A)
| Err (e : error)
| Panic (msg : string).

Arguments Ok {A} a.
Arguments Err {A} e.
Arguments Panic {A} msg.

End serr.

(** ** What the Go language and its [sort] package leave open

    - [range] over a map visits the entries in an unspecified order;
    - [sort.Sort] is not stable: it returns some ascending arrangement;
    - [append] may allocate more room than asked for, so a slice grown one
      element at a time from an empty literal has a capacity of at least
      its length.
    The embedding takes these choices as a parameter with the guarantees
    the language gives. *)

Module golang.

(** [less] orders elements as a strict weak order. *)
Record StrictWeak {A} (less : A → A → bool) : Prop := {
  sw_asym : ∀ a b, less a b = true → less b a = false;
  sw_negtrans : ∀ a b c, less a b = false → less b c = false → less a c = false
}.

(** Ascending for [less]: no later element is less than an earlier one. *)
Definition ascending {A} (less : A → A → bool) (l : list A) : Prop :=
  StronglySorted (λ a b, less b a = false) l.

Class Runtime := {
  mapRange : ∀ {K} `{Countable K} {V}, gmap K V → list (K * V);
  mapRange_perm : ∀ K `{Countable K} V (m : gmap K V),
    mapRange m ≡ₚ map_to_list m;
  sortSort : ∀ {A}, (A → A → bool) → list A → list A;
  sortSort_perm : ∀ A (less : A → A → bool) l, sortSort less l ≡ₚ l;
  sortSort_ascending : ∀ A (less : A → A → bool) l,
    StrictWeak less → ascending less (sortSort less l);
  appendCap : nat → nat;
  appendCap_ge : ∀ n, (n ≤ appendCap n)%nat
}.

(** [sort.SliceStable]: insertion from the right, an element going in front
    of the first one that is not less than it. A stable sort's result is
    determined by its input, so one stable algorithm stands for all. *)
Fixpoint insertStable {A} (less : A → A → bool) (x : A) (l : list A) : list A :=
  match l with
  | [] => [x]
  | y :: l' => if less y x then y :: insertStable less x l' else x :: l
  end.

Definition SliceStable {A} (less : A → A → bool) (l : list A) : list A :=
  foldr (insertStable less) [] l.

(** The slice expression [s[lo:hi]] on a slice of pointers with elements [l]
    and capacity [cap]: the bounds are checked against the capacity, and the
    slots past the length hold nil ([None]). *)
Definition sliceExpr {A} (l : list A) (cap : nat) (lo hi : Z)
  : serr.result (list (option A)) :=
  if (0 <=? lo) && (lo <=? hi) && (hi <=? Z.of_nat cap) then
    serr.Ok (take (Z.to_nat (hi - lo))
               (drop (Z.to_nat lo) ((Some <$> l) ++ replicate (cap - length l) None)))
  else serr.Panic "slice bounds out of range".

(** [strings.Contains(s, substr)]: [substr] starts at some position of [s]. *)
Fixpoint stringsContains (s substr : string) : bool :=
  if String.prefix substr s then true
  else match s with
       | EmptyString => false
       | String _ s' => stringsContains s' substr
       end.

End golang.

(** ** Package [reaction] *)

Module reaction.

Import golang.

(** [type Type uint]; the supported types are [iota + 1] onwards. *)
Definition TypeLike : N := 1%N.
Definition TypeLove : N := 2%N.
Definition TypeHaha : N := 3%N.
Definition TypeWow : N := 4%N.
Definition TypeSad : N := 5%N.
Definition TypeAngry : N := 6%N.

Definition TypeToIdentifier : list (N * string) :=
  [ (TypeLike, "like"); (TypeLove, "love"); (TypeHaha, "haha");
    (TypeWow, "wow"); (TypeSad, "sad"); (TypeAngry, "angry") ].

Module Reaction.
Record t := {
  Deleted : bool;
  ID : N;
  ObjectID : N;
  OwnerID : N;
  Type_ : N;
  CreatedAt : time.Time;
  UpdatedAt : time.Time
}.
End Reaction.

Module QueryOptions.
Record t := {
  Before : time.Time;
  Deleted : option bool;
  IDs : list N;
  Limit : Z;
  ObjectIDs : list N;
  OwnerIDs : list N;
  Types : list N
}.
End QueryOptions.

(** [type List []*Reaction] and [type Map map[uint64]*Reaction]. *)
Abbreviation List := (list Reaction.t).
Abbreviation Map := (gmap N Reaction.t).

(** The comparison [List.Less] makes between the elements at two indices. *)
Definition less (a b : Reaction.t) : bool :=
  time.After (Reaction.UpdatedAt a) (Reaction.UpdatedAt b).

(** [rs.Less(i, j)]; an index out of range panics ([None]). *)
Definition Less (rs : List) (i j : nat) : option bool :=
  match rs !! i, rs !! j with
  | Some a, Some b => Some (less a b)
  | _, _ => None
  end.

(** [rs.Less(i, j)] on a slice whose elements may be nil pointers ([None]):
    an index out of range panics, and so does the read of [UpdatedAt]
    through a nil element. *)
Definition LessPtr (rs : list (option Reaction.t)) (i j : nat) : option bool :=
  match rs !! i, rs !! j with
  | Some (Some a), Some (Some b) => Some (less a b)
  | _, _ => None
  end.

Definition OwnerIDs (rs : List) : list N :=
  fold_left (λ is_ r, is_ ++ [Reaction.OwnerID r]) rs [].

(** [rs.Len()]. *)
Definition Len (rs : List) : Z := gonum.len rs.

(** [rs.Swap(i, j)]: both elements are read, then [rs[i]] and [rs[j]] are
    written; an index out of range panics ([None]). *)
Definition Swap (rs : List) (i j : nat) : option List :=
  match rs !! j, rs !! i with
  | Some b, Some a => Some (<[j := a]> (<[i := b]> rs))
  | _, _ => None
  end.

(** [TypeToIdentifier[t]] with the comma-ok form: [None] when [t] is no key. *)
Definition identifierOf (t : N) : option string :=
  (list_to_map TypeToIdentifier : gmap N string) !! t.

(** [Map.ToList]: collect the values in iteration order, then [sort.Sort]. *)
Definition ToList `{RT : Runtime} (m : Map) : List :=
  let rs := fold_left (λ rs kv, rs ++ [kv.2]) (mapRange m) [] in
  sortSort less rs.

(** The loop over [opts.Types]: [discard] stays true unless a type matches. *)
Fixpoint typesLoop (ty : N) (ts : list N) (discard : bool) : bool :=
  match ts with
  | [] => discard
  | t :: ts' => if N.eqb ty t then false else typesLoop ty ts' discard
  end.

(** [r.MatchOpts(opts)]; [None] is the nil pointer. *)
Definition MatchOpts (r : Reaction.t) (opts : option QueryOptions.t) : bool :=
  match opts with
  | None => true
  | Some o =>
    if match QueryOptions.Deleted o with
       | Some d => negb (Bool.eqb (Reaction.Deleted r) d)
       | None => false
       end
    then false
    else if 0 <? gonum.len (QueryOptions.Types o) then
      if typesLoop (Reaction.Type_ r) (QueryOptions.Types o) true then false
      else true
    else true
  end.

(** [r.Validate()]; [None] is the nil error. *)
Definition Validate (r : Reaction.t) : option serr.error :=
  if N.eqb (Reaction.ObjectID r) 0 then
    Some (serr.Wrap serr.ErrInvalidReaction "missing object id" [])
  else if N.eqb (Reaction.OwnerID r) 0 then
    Some (serr.Wrap serr.ErrInvalidReaction "missing owner id" [])
  else if N.ltb (Reaction.Type_ r) TypeLike || N.ltb TypeAngry (Reaction.Type_ r) then
    Some (serr.Wrap serr.ErrInvalidReaction "unspported type '%d'"
            [Z.of_N (Reaction.Type_ r)])
  else None.

Definition flakeNamespace (ns : string) : string :=
  ns +:+ "_" +:+ "reactions".

End reaction.

(** ** Package [user]: the memory backed service of [service/user/mem.go] *)

Module user.

Import golang.

Module User.

(** Modelled from the spec: the [User] struct is declared in a file that is
    not among the sources. The fields are those [mem.go] reads or writes,
    with the types its expressions force, as section 3 of the specification
    lists them. *)
Record t := {
  CustomID : string;
  Deleted : bool;
  Email : string;
  Enabled : bool;
  ID : N;
  LastRead : time.Time;
  SocialIDs : gmap string string;
  Username : string;
  CreatedAt : time.Time;
  UpdatedAt : time.Time
}.

(** The assignments [mem.go] makes to fields of a user. *)
Definition setCreatedAt (u : t) (c : time.Time) : t :=
  {| CustomID := CustomID u; Deleted := Deleted u; Email := Email u;
     Enabled := Enabled u; ID := ID u; LastRead := LastRead u;
     SocialIDs := SocialIDs u; Username := Username u;
     CreatedAt := c; UpdatedAt := UpdatedAt u |}.

Definition setUpdatedAt (u : t) (c : time.Time) : t :=
  {| CustomID := CustomID u; Deleted := Deleted u; Email := Email u;
     Enabled := Enabled u; ID := ID u; LastRead := LastRead u;
     SocialIDs := SocialIDs u; Username := Username u;
     CreatedAt := CreatedAt u; UpdatedAt := c |}.

Definition setLastRead (u : t) (c : time.Time) : t :=
  {| CustomID := CustomID u; Deleted := Deleted u; Email := Email u;
     Enabled := Enabled u; ID := ID u; LastRead := c;
     SocialIDs := SocialIDs u; Username := Username u;
     CreatedAt := CreatedAt u; UpdatedAt := UpdatedAt u |}.

Definition setID (u : t) (i : N) : t :=
  {| CustomID := CustomID u; Deleted := Deleted u; Email := Email u;
     Enabled := Enabled u; ID := i; LastRead := LastRead u;
     SocialIDs := SocialIDs u; Username := Username u;
     CreatedAt := CreatedAt u; UpdatedAt := UpdatedAt u |}.
End User.

Module QueryOptions.

(** Modelled from the spec: the user package's [QueryOptions] is declared in
    the same missing file. [Limit] is an [int] (it is compared with [len]);
    [Offset] is converted with [int(...)] before use and is taken as a
    [uint]; [Deleted] and [Enabled] are pointers, [SocialIDs] a map that may
    be nil. *)
Record t := {
  Before : time.Time;
  CustomIDs : list string;
  Deleted : option bool;
  Emails : list string;
  Enabled : option bool;
  IDs : list N;
  Limit : Z;
  Offset : Z;
  Query : string;
  SocialIDs : option (gmap string (list string));
  Usernames : list string
}.
End QueryOptions.

(** [type List []*User], [type Map map[uint64]*User]. A bucket owns the
    records it points to ([Put] stores a fresh [copy]), so a bucket is a map
    from ids to records. *)
Abbreviation List := (list User.t).
Abbreviation Map := (gmap N User.t).

(** The collaborators of the service that live outside the sources:
    [Validate] on a user, of the user package's missing file, about whose
    content the specification says nothing, and [levenshtein.Distance] of
    an external library. *)
Class Collaborators := {
  Validate : User.t → option serr.error;
  Distance : string → string → Z
}.

(** Modelled from the spec: [flakeNamespace] of the user package is not
    among the sources; section 6 gives it as the namespace followed by the
    entity's suffix, as the reaction package's reads. *)
Definition flakeNamespace (ns : string) : string :=
  ns +:+ "_" +:+ "users".

(** Modelled from the spec: [List.Less] of the user package is not among the
    sources; it compares by [UpdatedAt] as the reaction package's does. *)
Definition less (a b : User.t) : bool :=
  time.After (User.UpdatedAt a) (User.UpdatedAt b).

(** Modelled from the spec: [Map.ToList] of the user package is not among
    the sources. Section 4.3 has [Query] return the bucket's entities sorted
    by [UpdatedAt], most recent first, and [Query] itself does not sort: the
    list is built and sorted as the reaction package's [Map.ToList] does. *)
Definition ToList `{RT : Runtime} (m : Map) : List :=
  let us := fold_left (λ us kv, us ++ [kv.2]) (mapRange m) [] in
  sortSort less us.

Record memService := { users : gmap string Map }.

(** [MemService()]. *)
Definition MemService : memService := {| users := ∅ |}.

(** [s.users[ns]]: a missing key reads as the nil map. *)
Definition bucketOf (s : memService) (ns : string) : Map :=
  users s !!! ns.

(** [inIDs]: the loop stops at the first hit. *)
Fixpoint inIDsLoop (id : N) (ids : list N) (keep : bool) : bool :=
  match ids with
  | [] => keep
  | i :: ids' => if N.eqb id i then true else inIDsLoop id ids' keep
  end.

Definition inIDs (id : N) (ids : list N) : bool :=
  if gonum.len ids =? 0 then true else inIDsLoop id ids false.

Fixpoint inTypesLoop (ty : string) (ts : list string) (keep : bool) : bool :=
  match ts with
  | [] => keep
  | t :: ts' => if String.eqb ty t then true else inTypesLoop ty ts' keep
  end.

Definition inTypes (ty : string) (ts : list string) : bool :=
  if gonum.len ts =? 0 then true else inTypesLoop ty ts false.

(** [contains]: the loop assigns [keep] at every round and stops at the
    first hit. *)
Fixpoint containsLoop (s : string) (ts : list string) (keep : bool) : bool :=
  match ts with
  | [] => keep
  | t :: ts' =>
    let keep := stringsContains s t in
    if keep then keep else containsLoop s ts' keep
  end.

Definition contains (s : string) (ts : list string) : bool :=
  if gonum.len ts =? 0 then true else containsLoop s ts false.

(** One round of the loop over [opts.SocialIDs]. *)
Definition socialStep (u : User.t) (keep : bool) (kv : string * list string) : bool :=
  match User.SocialIDs u !! kv.1 with
  | None => keep
  | Some v => if negb (inTypes v kv.2) then keep else true
  end.

(** The body of [filterList]'s loop: [true] when the user reaches the
    [append], [false] when one of the [continue]s is taken. *)
Definition filterKeep `{RT : Runtime} (opts : QueryOptions.t) (u : User.t) : bool :=
  if negb (inTypes (User.CustomID u) (QueryOptions.CustomIDs opts)) then false
  else if match QueryOptions.Deleted opts with
          | Some d => negb (Bool.eqb (User.Deleted u) d)
          | None => false
          end then false
  else if negb (inTypes (User.Email u) (QueryOptions.Emails opts)) then false
  else if match QueryOptions.Enabled opts with
          | Some e => negb (Bool.eqb (User.Enabled u) e)
          | None => false
          end then false
  else if negb (inIDs (User.ID u) (QueryOptions.IDs opts)) then false
  else if match QueryOptions.SocialIDs opts with
          | Some m => negb (fold_left (socialStep u) (mapRange m) false)
          | None => false
          end then false
  else if negb (inTypes (User.Username u) (QueryOptions.Usernames opts)) then false
  else true.

Definition filterList `{RT : Runtime} (us : List) (opts : QueryOptions.t) : List :=
  fold_left (λ rs u, if filterKeep opts u then rs ++ [u] else rs) us [].

(** [copy]: a fresh record with the same fields. *)
Definition copy (u : User.t) : User.t := u.

(** [Setup]: the error is always nil. *)
Definition Setup (ns : string) (s : memService) : option serr.error * memService :=
  match users s !! ns with
  | Some _ => (None, s)
  | None => (None, {| users := <[ns := ∅]> (users s) |})
  end.

Definition Teardown (ns : string) (s : memService) : option serr.error * memService :=
  match users s !! ns with
  | Some _ => (None, {| users := delete ns (users s) |})
  | None => (None, s)
  end.

(** [bucket[id] = u] for the bucket of [ns]. *)
Definition store (ns : string) (id : N) (u : User.t) (s : memService) : memService :=
  {| users := <[ns := <[id := u]> (bucketOf s ns)]> (users s) |}.

Definition Count `{RT : Runtime} (ns : string) (opts : QueryOptions.t) (s : memService)
  : serr.result Z * memService :=
  match Setup ns s with
  | (Some err, s) => (serr.Err err, s)
  | (None, s) =>
    (serr.Ok (gonum.len (filterList (ToList (bucketOf s ns)) opts)), s)
  end.

(** The loop of [Put] over the bucket's values. *)
Definition putStep (keepInput : bool * User.t) (kv : N * User.t) : bool * User.t :=
  let '(keep, input) := keepInput in
  if N.eqb (User.ID kv.2) (User.ID input)
  then (true, User.setCreatedAt input (User.CreatedAt kv.2))
  else (keep, input).

(** [Put]. [clock] is what [time.Now()] reads and [nextID] what
    [flake.NextID] answers for a flake namespace. [input] is the value the
    caller's pointer refers to; the assignments to it are followed through
    the body, and what they leave in the caller's record is not part of the
    service state. A nil pointer, on which the first read of a field
    panics, has no counterpart here: the definition speaks of calls with a
    user. *)
Definition Put `{RT : Runtime} `{CO : Collaborators} (ns : string) (input : User.t)
    (clock : time.Time) (nextID : string → serr.error + N) (s : memService)
  : serr.result User.t * memService :=
  match Setup ns s with
  | (Some err, s) => (serr.Err err, s)
  | (None, s) =>
    match Validate input with
    | Some err => (serr.Err err, s)
    | None =>
      let bucket := bucketOf s ns in
      let now := time.UTC clock in
      let finish (input : User.t) :=
        let input := User.setUpdatedAt input now in
        (serr.Ok (copy input), store ns (User.ID input) (copy input) s) in
      if N.eqb (User.ID input) 0 then
        match nextID (flakeNamespace ns) with
        | inl err => (serr.Err err, s)
        | inr id =>
          let input :=
            if time.IsZero (User.CreatedAt input)
            then User.setCreatedAt input now else input in
          finish (User.setID input id)
        end
      else
        let '(keep, input) := fold_left putStep (mapRange bucket) (false, input) in
        if negb keep then (serr.Err serr.ErrNotFound, s)
        else finish input
    end
  end.

Definition PutLastRead (ns : string) (userID : N) (ts : time.Time) (s : memService)
  : option serr.error * memService :=
  match Setup ns s with
  | (Some err, s) => (Some err, s)
  | (None, s) =>
    match bucketOf s ns !! userID with
    | Some u => (None, store ns userID (User.setLastRead u (time.UTC ts)) s)
    | None => (None, s)
    end
  end.

Definition Query `{RT : Runtime} (ns : string) (opts : QueryOptions.t) (s : memService)
  : serr.result List * memService :=
  match Setup ns s with
  | (Some err, s) => (serr.Err err, s)
  | (None, s) =>
    let us := filterList (ToList (bucketOf s ns)) opts in
    let us :=
      if (0 <? QueryOptions.Limit opts) && (QueryOptions.Limit opts <? gonum.len us)
      then take (Z.to_nat (QueryOptions.Limit opts)) us else us in
    (serr.Ok us, s)
  end.

(** [Search]. The result is a list of pointers: a slice expression that
    reaches past the length hands out the nil slots of the backing array. *)
Definition Search `{RT : Runtime} `{CO : Collaborators} (ns : string) (opts : QueryOptions.t)
    (s : memService) : serr.result (list (option User.t)) * memService :=
  match Setup ns s with
  | (Some err, s) => (serr.Err err, s)
  | (None, s) =>
    if String.eqb (QueryOptions.Query opts) "" then
      (serr.Err (serr.Wrap serr.ErrInvalidQuery "param is empty" []), s)
    else
      let q := QueryOptions.Query opts in
      let us := ToList (bucketOf s ns) in
      let cap := appendCap (length us) in
      let us :=
        SliceStable (λ a b, Distance q (User.Username a) <? Distance q (User.Username b)) us in
      let fs :=
        fold_left (λ fs u, if Distance q (User.Username u) <? 8 then fs ++ [u] else fs) us [] in
      let offset := gonum.int_of_uint (QueryOptions.Offset opts) in
      if gonum.len us <? offset then (serr.Ok [], s)
      else if (QueryOptions.Limit opts =? 0) && (QueryOptions.Offset opts =? 0) then
        (serr.Ok (Some <$> us), s)
      else
        (sliceExpr us cap offset (gonum.int_add offset (QueryOptions.Limit opts)), s)
  end.

End user.

(** ** Reference instances

    One concrete runtime and one concrete pair of collaborators, so that the
    operations can be run on sample inputs. *)

Module reference.

Import golang.

(** Capacity doubles when room runs out, starting from one. *)
Fixpoint doubling (n : nat) : nat :=
  match n with
  | O => O
  | S k =>
    let c := doubling k in
    if (S k <=? c)%nat then c else Nat.max 1 (2 * c)
  end.

(** The Levenshtein distance between two lists of characters. *)
Fixpoint lev (s : list Ascii.ascii) : list Ascii.ascii → nat :=
  fix inner (t : list Ascii.ascii) : nat :=
    match s, t with
    | [], _ => length t
    | _, [] => length s
    | a :: s', b :: t' =>
      if Ascii.eqb a b then lev s' t'
      else S (Nat.min (lev s' t') (Nat.min (lev s' t) (inner t')))
    end.

Definition levenshtein (a b : string) : Z :=
  Z.of_nat (lev (String.list_ascii_of_string a) (String.list_ascii_of_string b)).

(** A stand-in for the user package's validation, which is not among the
    sources: it asks for a user name. It serves only to run the operations
    on the sample data; no property is stated about it. *)
Definition needsUsername (u : user.User.t) : option serr.error :=
  if String.eqb (user.User.Username u) ""
  then Some (serr.ErrExternal "username must be set") else None.

End reference.

(** ** The specification's wording of the filter options *)

Module spec.

(** A set option: left empty it asks for nothing, populated it asks for the
    field to be one of its members. *)
Definition setOption {A} (x : A) (s : list A) : Prop := s = [] ∨ x ∈ s.

(** A boolean option: when given, the field must equal it. *)
Definition valueOption (x : bool) (o : option bool) : Prop :=
  ∀ v, o = Some v → x = v.

(** The map-shaped option, as [filterList] evaluates it: when given, some
    platform of the constraint is one the user has an id for, and that id
    passes the platform's id set. *)
Definition socialOption (have : gmap string string)
    (o : option (gmap string (list string))) : Prop :=
  ∀ m, o = Some m →
    ∃ platform ids v,
      m !! platform = Some ids ∧ have !! platform = Some v ∧ setOption v ids.

End spec.

(** ** The vocabulary of the statements *)

Section Vocabulary.

Import golang.

Context {RT : Runtime} {CO : user.Collaborators}.

(** The entities of a bucket, in the order [map_to_list] happens to give. *)
Definition entities (b : user.Map) : list user.User.t := (map_to_list b).*2.

(** Every record of every bucket sits under its own id. *)
Definition wellKeyed (s : user.memService) : Prop :=
  ∀ ns k v, user.bucketOf s ns !! k = Some v → user.User.ID v = k.

(** Most recently updated first. *)
Definition newestFirst (l : list user.User.t) : Prop :=
  StronglySorted
    (λ a b, time.instant (user.User.UpdatedAt b) ≤ time.instant (user.User.UpdatedAt a)) l.

(** The distance [Search] ranks a user by. *)
Definition distanceTo (opts : user.QueryOptions.t) (u : user.User.t) : Z :=
  user.Distance (user.QueryOptions.Query opts) (user.User.Username u).

(** The bucket's list after the stable sort of [Search]. *)
Definition ranked (ns : string) (opts : user.QueryOptions.t) (s : user.memService)
  : list user.User.t :=
  SliceStable (λ a b, distanceTo opts a <? distanceTo opts b)
    (user.ToList (user.bucketOf s ns)).

(** The candidate count, the offset as the [int] it is converted to, and the
    capacity of the ranked slice. *)
Definition candidates (ns : string) (opts : user.QueryOptions.t) (s : user.memService) : Z :=
  gonum.len (ranked ns opts s).

Definition offsetOf (opts : user.QueryOptions.t) : Z :=
  gonum.int_of_uint (user.QueryOptions.Offset opts).

Definition capacity (ns : string) (opts : user.QueryOptions.t) (s : user.memService) : Z :=
  Z.of_nat (appendCap (length (ranked ns opts s))).

(** The options with the limit taken off. *)
Definition unlimited (opts : user.QueryOptions.t) : user.QueryOptions.t :=
  {| user.QueryOptions.Before := user.QueryOptions.Before opts;
     user.QueryOptions.CustomIDs := user.QueryOptions.CustomIDs opts;
     user.QueryOptions.Deleted := user.QueryOptions.Deleted opts;
     user.QueryOptions.Emails := user.QueryOptions.Emails opts;
     user.QueryOptions.Enabled := user.QueryOptions.Enabled opts;
     user.QueryOptions.IDs := user.QueryOptions.IDs opts;
     user.QueryOptions.Limit := 0;
     user.QueryOptions.Offset := user.QueryOptions.Offset opts;
     user.QueryOptions.Query := user.QueryOptions.Query opts;
     user.QueryOptions.SocialIDs := user.QueryOptions.SocialIDs opts;
     user.QueryOptions.Usernames := user.QueryOptions.Usernames opts |}.

(** Options that ask for one id and for nothing else. *)
Definition onlyID (opts : user.QueryOptions.t) (id : N) : Prop :=
  user.QueryOptions.CustomIDs opts = [] ∧
  user.QueryOptions.Deleted opts = None ∧
  user.QueryOptions.Emails opts = [] ∧
  user.QueryOptions.Enabled opts = None ∧
  user.QueryOptions.IDs opts = [id] ∧
  user.QueryOptions.SocialIDs opts = None ∧
  user.QueryOptions.Usernames opts = [] ∧
  user.QueryOptions.Limit opts = 0.

(** [s] holds [t]: some text stands before it and some after. *)
Definition occursIn (t s : string) : Prop :=
  ∃ pre post, s = pre +:+ t +:+ post.

(** Two states answer every read of a namespace alike. *)
Definition sameReads (ns : string) (s1 s2 : user.memService) : Prop :=
  ∀ opts,
    (user.Count ns opts s1).1 = (user.Count ns opts s2).1 ∧
    (user.Query ns opts s1).1 = (user.Query ns opts s2).1 ∧
    (user.Search ns opts s1).1 = (user.Search ns opts s2).1.

(** Nearest first. *)
Definition nearestFirst (opts : user.QueryOptions.t) (l : list user.User.t) : Prop :=
  StronglySorted (λ a b, distanceTo opts a ≤ distanceTo opts b) l.

(** The users of [l] at distance [d], in the order [l] has them. *)
Definition atDistance (opts : user.QueryOptions.t) (d : Z) (l : list user.User.t)
  : list user.User.t :=
  List.filter (λ u, distanceTo opts u =? d) l.

End Vocabulary.

(** Sample data: three users in the bucket of one namespace. *)
Module sample.

Definition at_ (i : Z) : time.Time :=
  {| time.instant := i; time.location := time.UTCLoc |}.

Definition mkUser (id : N) (name : string) (created updated : Z) : user.User.t :=
  {| user.User.CustomID := ""; user.User.Deleted := false;
     user.User.Email := name +:+ "@example.org"; user.User.Enabled := true;
     user.User.ID := id; user.User.LastRead := time.zero;
     user.User.SocialIDs := ∅; user.User.Username := name;
     user.User.CreatedAt := at_ created; user.User.UpdatedAt := at_ updated |}.

Definition alice : user.User.t := mkUser 1 "alice" 5 10.
Definition bob : user.User.t := mkUser 2 "bob" 6 30.
Definition alicia : user.User.t := mkUser 3 "alicia" 7 20.

Definition state : user.memService :=
  {| user.users := {[ "app" := {[ 1%N := alice; 2%N := bob; 3%N := alicia ]} ]} |}.

(** Options that constrain nothing, with a query text and a page. *)
Definition page (q : string) (limit offset : Z) : user.QueryOptions.t :=
  {| user.QueryOptions.Before := time.zero;
     user.QueryOptions.CustomIDs := [];
     user.QueryOptions.Deleted := None;
     user.QueryOptions.Emails := [];
     user.QueryOptions.Enabled := None;
     user.QueryOptions.IDs := [];
     user.QueryOptions.Limit := limit;
     user.QueryOptions.Offset := offset;
     user.QueryOptions.Query := q;
     user.QueryOptions.SocialIDs := None;
     user.QueryOptions.Usernames := [] |}.

(** Options that ask for one id and nothing else. *)
Definition byID (id : N) : user.QueryOptions.t :=
  {| user.QueryOptions.Before := time.zero;
     user.QueryOptions.CustomIDs := [];
     user.QueryOptions.Deleted := None;
     user.QueryOptions.Emails := [];
     user.QueryOptions.Enabled := None;
     user.QueryOptions.IDs := [id];
     user.QueryOptions.Limit := 0;
     user.QueryOptions.Offset := 0;
     user.QueryOptions.Query := "";
     user.QueryOptions.SocialIDs := None;
     user.QueryOptions.Usernames := [] |}.

(** A clock reading in a zone one hour east of UTC. *)
Definition clock : time.Time :=
  {| time.instant := 99; time.location := time.Zone "CET" 3600 |}.

(** An id generator that always answers 9. *)
Definition nextID (_ : string) : serr.error + N := inr 9%N.

End sample.

(** * Properties *)

(** ** Sorting *)

Section Sorting.

Import golang.

Context {A : Type} (less : A → A → bool).

Lemma insertStable_perm (x : A) (l : list A) :
  insertStable less x l ≡ₚ x :: l.
Proof.
  induction l as [|y l IH]; simpl; [done|].
  destruct (less y x); [|done].
  rewrite IH. apply Permutation_swap.
Qed.

Lemma SliceStable_perm (l : list A) : SliceStable less l ≡ₚ l.
Proof.
  induction l as [|x l IH]; simpl; [done|].
  fold (SliceStable less l). by rewrite insertStable_perm, IH.
Qed.

Lemma SliceStable_length (l : list A) : length (SliceStable less l) = length l.
Proof. by rewrite SliceStable_perm. Qed.

Lemma insertStable_ascending (x : A) (l : list A) :
  StrictWeak less → ascending less l → ascending less (insertStable less x l).
Proof.
  intros [Hasym Hneg]. unfold ascending.
  induction l as [|y l IH]; simpl; intros Hl.
  - repeat constructor.
  - apply StronglySorted_cons in Hl as [Hy Hl].
    destruct (less y x) eqn:Hyx.
    + apply StronglySorted_cons. split; [|by apply IH].
      rewrite insertStable_perm. constructor; [by apply Hasym|done].
    + apply StronglySorted_cons. split; [|by apply StronglySorted_cons].
      constructor; [done|].
      eapply Forall_impl; [exact Hy|]. intros z Hz. simpl in Hz.
      by apply (Hneg z y x).
Qed.

Lemma SliceStable_ascending (l : list A) :
  StrictWeak less → ascending less (SliceStable less l).
Proof.
  intros Hsw. induction l as [|x l IH]; simpl.
  - constructor.
  - by apply insertStable_ascending.
Qed.

(** Stability: a class of elements none of which is less than another keeps
    its order. *)
Lemma insertStable_stable (P : A → bool) (x : A) (l : list A) :
  (∀ a b, P a = true → P b = true → less a b = false) →
  List.filter P (insertStable less x l) = List.filter P (x :: l).
Proof.
  intros HP. induction l as [|y l IH]; [done|].
  cbn [insertStable]. destruct (less y x) eqn:Hyx; [|done].
  cbn [List.filter] in *. rewrite IH.
  destruct (P y) eqn:Py, (P x) eqn:Px; try done.
  by rewrite (HP y x) in Hyx.
Qed.

Lemma SliceStable_stable (P : A → bool) (l : list A) :
  (∀ a b, P a = true → P b = true → less a b = false) →
  List.filter P (SliceStable less l) = List.filter P l.
Proof.
  intros HP. induction l as [|x l IH]; [done|].
  cbn [SliceStable foldr]. fold (SliceStable less l).
  rewrite insertStable_stable by done.
  cbn [List.filter]. by rewrite IH.
Qed.

End Sorting.

Lemma doubling_ge (n : nat) : (n ≤ reference.doubling n)%nat.
Proof.
  induction n as [|n IH]; simpl; [lia|].
  destruct (reference.doubling n) as [|c] eqn:Hc.
  - simpl. lia.
  - destruct (n <=? c)%nat eqn:Hle.
    + apply Nat.leb_le in Hle. lia.
    + apply Nat.leb_gt in Hle. lia.
Qed.

(** The reference runtime: maps are walked in [map_to_list] order, [sort.Sort]
    is the stable insertion sort, capacities double. *)
Definition refRuntime : golang.Runtime := {|
  golang.mapRange := λ K _ _ V m, map_to_list m;
  golang.mapRange_perm := λ K _ _ V m, reflexivity _;
  golang.sortSort := @golang.SliceStable;
  golang.sortSort_perm := @SliceStable_perm;
  golang.sortSort_ascending := @SliceStable_ascending;
  golang.appendCap := reference.doubling;
  golang.appendCap_ge := doubling_ge
|}.

Definition refCollaborators : user.Collaborators := {|
  user.Validate := reference.needsUsername;
  user.Distance := reference.levenshtein
|}.

(** ** Lists built by [append] in a loop *)

Lemma fold_left_snoc_map {A B} (f : A → B) (l : list A) (acc : list B) :
  fold_left (λ rs x, rs ++ [f x]) l acc = acc ++ (f <$> l).
Proof.
  revert acc. induction l as [|x l IH]; intros acc; simpl.
  - by rewrite app_nil_r.
  - rewrite IH. by rewrite <- app_assoc.
Qed.

Lemma fold_left_snoc_filter {A} (P : A → bool) (l : list A) (acc : list A) :
  fold_left (λ rs x, if P x then rs ++ [x] else rs) l acc = acc ++ List.filter P l.
Proof.
  revert acc. induction l as [|x l IH]; intros acc; simpl.
  - by rewrite app_nil_r.
  - rewrite IH. destruct (P x); [|done]. by rewrite <- app_assoc.
Qed.

Lemma filter_bool_elem_of {A} (P : A → bool) (l : list A) (x : A) :
  x ∈ List.filter P l ↔ x ∈ l ∧ P x = true.
Proof. rewrite !list_elem_of_In. apply filter_In. Qed.

Lemma filter_bool_perm {A} (P : A → bool) (l1 l2 : list A) :
  l1 ≡ₚ l2 → List.filter P l1 ≡ₚ List.filter P l2.
Proof.
  induction 1 as [|x l1 l2 _ IH|x y l|l1 l2 l3 _ IH1 _ IH2]; simpl.
  - done.
  - destruct (P x); by rewrite IH.
  - destruct (P x), (P y); try done. apply Permutation_swap.
  - by rewrite IH1.
Qed.

(** ** The membership loops *)

Lemma typesLoop_spec (ty : N) (ts : list N) :
  reaction.typesLoop ty ts true = false ↔ ty ∈ ts.
Proof.
  induction ts as [|t ts IH]; simpl.
  - split; [done|]. by intros ?%elem_of_nil.
  - rewrite elem_of_cons. destruct (N.eqb_spec ty t) as [->|Hne].
    + split; auto.
    + rewrite IH. split; [auto|]. by intros [?|?].
Qed.

Lemma inIDs_spec (id : N) (ids : list N) :
  user.inIDs id ids = true ↔ spec.setOption id ids.
Proof.
  unfold user.inIDs, spec.setOption, gonum.len.
  destruct ids as [|i ids]; [by split; auto|].
  replace (Z.of_nat (length (i :: ids)) =? 0) with false
    by (symmetry; apply Z.eqb_neq; simpl; lia).
  transitivity (id ∈ i :: ids); [|by split; [auto|intros [?|?]]].
  generalize (i :: ids) as l. clear. intros l.
  induction l as [|j l IH]; simpl.
  - split; [done|]. by intros ?%elem_of_nil.
  - rewrite elem_of_cons. destruct (N.eqb_spec id j) as [->|Hne].
    + split; auto.
    + rewrite IH. split; [auto|]. by intros [?|?].
Qed.

Lemma inTypes_spec (ty : string) (ts : list string) :
  user.inTypes ty ts = true ↔ spec.setOption ty ts.
Proof.
  unfold user.inTypes, spec.setOption, gonum.len.
  destruct ts as [|t ts]; [by split; auto|].
  replace (Z.of_nat (length (t :: ts)) =? 0) with false
    by (symmetry; apply Z.eqb_neq; simpl; lia).
  transitivity (ty ∈ t :: ts); [|by split; [auto|intros [?|?]]].
  generalize (t :: ts) as l. clear. intros l.
  induction l as [|j l IH]; simpl.
  - split; [done|]. by intros ?%elem_of_nil.
  - rewrite elem_of_cons. destruct (String.eqb_spec ty j) as [->|Hne].
    + split; auto.
    + rewrite IH. split; [auto|]. by intros [?|?].
Qed.

Lemma valueOption_spec (x : bool) (o : option bool) :
  match o with Some d => negb (Bool.eqb x d) | None => false end = false
  ↔ spec.valueOption x o.
Proof.
  unfold spec.valueOption. destruct o as [d|].
  - rewrite negb_false_iff, Bool.eqb_true_iff. split.
    + by intros -> v [= ->].
    + intros Hv. by apply Hv.
  - split; [by intros _ v|done].
Qed.

(** The loop over the platforms only ever raises [keep]. *)
Lemma socialLoop_spec (u : user.User.t) (l : list (string * list string)) (keep : bool) :
  fold_left (user.socialStep u) l keep = true ↔
  keep = true ∨
  ∃ kv v, kv ∈ l ∧ user.User.SocialIDs u !! kv.1 = Some v ∧ user.inTypes v kv.2 = true.
Proof.
  revert keep. induction l as [|kv l IH]; intros keep; simpl.
  - split; [auto|]. intros [?|(? & ? & []%elem_of_nil & _)]; done.
  - rewrite IH. unfold user.socialStep at 1.
    destruct (user.User.SocialIDs u !! kv.1) as [v|] eqn:Hv.
    + destruct (user.inTypes v kv.2) eqn:Hin; simpl.
      * split; [|auto]. intros _. right. exists kv, v. by rewrite elem_of_cons; auto.
      * split.
        -- intros [?|(kv' & v' & ? & ? & ?)]; [auto|].
           right. exists kv', v'. rewrite elem_of_cons. auto.
        -- intros [?|(kv' & v' & [->|?]%elem_of_cons & Hv' & Hin')]; [auto| |].
           ++ rewrite Hv in Hv'. injection Hv' as <-. congruence.
           ++ right. by exists kv', v'.
    + split.
      * intros [?|(kv' & v' & ? & ? & ?)]; [auto|].
        right. exists kv', v'. rewrite elem_of_cons. auto.
      * intros [?|(kv' & v' & [->|?]%elem_of_cons & Hv' & Hin')]; [auto| |].
        -- congruence.
        -- right. by exists kv', v'.
Qed.

(** ** The filter evaluators *)

Section Filter.

Import golang.

Context {RT : Runtime}.

Lemma filterList_filter (us : user.List) (opts : user.QueryOptions.t) :
  user.filterList us opts = List.filter (user.filterKeep opts) us.
Proof. unfold user.filterList. by rewrite fold_left_snoc_filter. Qed.

Lemma socialOption_spec (u : user.User.t) (o : option (gmap string (list string))) :
  match o with
  | Some m => negb (fold_left (user.socialStep u) (mapRange m) false)
  | None => false
  end = false
  ↔ spec.socialOption (user.User.SocialIDs u) o.
Proof.
  unfold spec.socialOption. destruct o as [m|]; [|by split; [intros _ m|]].
  rewrite negb_false_iff, socialLoop_spec. split.
  - intros [?|([p ids] & v & Hin & Hv & Hok)] m' [= <-]; [done|].
    rewrite mapRange_perm in Hin. apply elem_of_map_to_list in Hin.
    exists p, ids, v. by rewrite <- inTypes_spec.
  - intros Hm. destruct (Hm m eq_refl) as (p & ids & v & Hp & Hv & Hok).
    right. exists (p, ids), v. rewrite mapRange_perm, elem_of_map_to_list.
    by rewrite inTypes_spec.
Qed.

Lemma filterKeep_spec (opts : user.QueryOptions.t) (u : user.User.t) :
  user.filterKeep opts u = true ↔
    spec.setOption (user.User.CustomID u) (user.QueryOptions.CustomIDs opts) ∧
    spec.valueOption (user.User.Deleted u) (user.QueryOptions.Deleted opts) ∧
    spec.setOption (user.User.Email u) (user.QueryOptions.Emails opts) ∧
    spec.valueOption (user.User.Enabled u) (user.QueryOptions.Enabled opts) ∧
    spec.setOption (user.User.ID u) (user.QueryOptions.IDs opts) ∧
    spec.socialOption (user.User.SocialIDs u) (user.QueryOptions.SocialIDs opts) ∧
    spec.setOption (user.User.Username u) (user.QueryOptions.Usernames opts).
Proof.
  rewrite <- !inTypes_spec, <- inIDs_spec, <- !valueOption_spec, <- socialOption_spec.
  unfold user.filterKeep.
  repeat match goal with
  | |- context [if negb ?b then _ else _] => destruct b; simpl
  | |- context [if ?b then false else _] => destruct b; simpl
  end; intuition congruence.
Qed.

End Filter.

(** C1, as it stands, fails on [Reaction.MatchOpts]: a reaction owned by 7 is
    kept by options that ask for owner 5. *)
Lemma MatchOpts_keeps_foreign_owner :
  let r := {| reaction.Reaction.Deleted := false; reaction.Reaction.ID := 1;
              reaction.Reaction.ObjectID := 2; reaction.Reaction.OwnerID := 7;
              reaction.Reaction.Type_ := reaction.TypeLike;
              reaction.Reaction.CreatedAt := time.zero;
              reaction.Reaction.UpdatedAt := time.zero |} in
  let o := {| reaction.QueryOptions.Before := time.zero;
              reaction.QueryOptions.Deleted := None;
              reaction.QueryOptions.IDs := [];
              reaction.QueryOptions.Limit := 0;
              reaction.QueryOptions.ObjectIDs := [];
              reaction.QueryOptions.OwnerIDs := [5%N];
              reaction.QueryOptions.Types := [] |} in
  reaction.MatchOpts r (Some o) = true ∧
  ¬ spec.setOption (reaction.Reaction.OwnerID r) (reaction.QueryOptions.OwnerIDs o).
Proof.
  split; [reflexivity|]. intros [?|Hin]; [done|].
  apply list_elem_of_singleton in Hin. done.
Qed.

(** C1 (amended): [Reaction.MatchOpts] keeps a reaction exactly when the
    [Deleted] option and the [Types] set option pass, whatever [IDs],
    [ObjectIDs] and [OwnerIDs] hold; [filterList] keeps a user of the list
    exactly when every option passes, the set options [CustomIDs], [Emails],
    [IDs] and [Usernames] each asking for membership when populated and for
    nothing when empty. *)
Theorem filter_set_options :
  (∀ r o,
     reaction.MatchOpts r (Some o) = true ↔
       spec.valueOption (reaction.Reaction.Deleted r) (reaction.QueryOptions.Deleted o) ∧
       spec.setOption (reaction.Reaction.Type_ r) (reaction.QueryOptions.Types o)) ∧
  (∀ (R : golang.Runtime) us opts u,
     u ∈ user.filterList us opts ↔
       u ∈ us ∧
       spec.setOption (user.User.CustomID u) (user.QueryOptions.CustomIDs opts) ∧
       spec.valueOption (user.User.Deleted u) (user.QueryOptions.Deleted opts) ∧
       spec.setOption (user.User.Email u) (user.QueryOptions.Emails opts) ∧
       spec.valueOption (user.User.Enabled u) (user.QueryOptions.Enabled opts) ∧
       spec.setOption (user.User.ID u) (user.QueryOptions.IDs opts) ∧
       spec.socialOption (user.User.SocialIDs u) (user.QueryOptions.SocialIDs opts) ∧
       spec.setOption (user.User.Username u) (user.QueryOptions.Usernames opts)).
Proof.
  split.
  - intros r o. unfold reaction.MatchOpts.
    rewrite <- valueOption_spec.
    destruct (match reaction.QueryOptions.Deleted o with
              | Some d => negb (Bool.eqb (reaction.Reaction.Deleted r) d)
              | None => false end); [by split; [|intros []]|].
    unfold spec.setOption, gonum.len.
    destruct (reaction.QueryOptions.Types o) as [|t ts] eqn:Hts; [by split; auto|].
    replace (0 <? Z.of_nat (length (t :: ts))) with true
      by (symmetry; apply Z.ltb_lt; simpl; lia).
    destruct (reaction.typesLoop _ _ true) eqn:Hloop.
    + split; [done|]. intros [_ [?|Hin]]; [done|].
      apply typesLoop_spec in Hin. congruence.
    + apply typesLoop_spec in Hloop. by split; auto.
  - intros R us opts u.
    by rewrite filterList_filter, filter_bool_elem_of, filterKeep_spec.
Qed.

(** C5: [Validate] returns an error exactly when the object id is zero, the
    owner id is zero, or the type lies outside [TypeLike .. TypeAngry]. *)
Theorem Validate_fails_iff (r : reaction.Reaction.t) :
  is_Some (reaction.Validate r) ↔
    reaction.Reaction.ObjectID r = 0%N ∨
    reaction.Reaction.OwnerID r = 0%N ∨
    ¬ (reaction.TypeLike ≤ reaction.Reaction.Type_ r ≤ reaction.TypeAngry)%N.
Proof.
  unfold reaction.Validate, reaction.TypeLike, reaction.TypeAngry.
  destruct (N.eqb_spec (reaction.Reaction.ObjectID r) 0) as [?|Hob];
    [by split; [auto|eexists]|].
  destruct (N.eqb_spec (reaction.Reaction.OwnerID r) 0) as [?|Hon];
    [by split; [auto|eexists]|].
  destruct (N.ltb_spec (reaction.Reaction.Type_ r) 1) as [Hlo|Hlo]; simpl.
  { split; [|by eexists]. intros _. right. right. lia. }
  destruct (N.ltb_spec 6 (reaction.Reaction.Type_ r)) as [Hhi|Hhi].
  { split; [|by eexists]. intros _. right. right. lia. }
  split; [by intros [? [=]]|]. intros [?|[?|Hn]]; [done|done|]. lia.
Qed.

(** ** Namespace lifecycle *)

Lemma Setup_nil (ns : string) (s : user.memService) : (user.Setup ns s).1 = None.
Proof. unfold user.Setup. by destruct (user.users s !! ns). Qed.

Lemma Setup_pair (ns : string) (s : user.memService) :
  user.Setup ns s = (None, (user.Setup ns s).2).
Proof. unfold user.Setup. by destruct (user.users s !! ns). Qed.

Lemma Setup_present (ns : string) (s : user.memService) :
  is_Some (user.users s !! ns) → (user.Setup ns s).2 = s.
Proof. intros [b Hb]. unfold user.Setup. by rewrite Hb. Qed.

Lemma Setup_absent (ns : string) (s : user.memService) :
  user.users s !! ns = None →
  user.users (user.Setup ns s).2 = <[ns := ∅]> (user.users s).
Proof. intros Hb. unfold user.Setup. by rewrite Hb. Qed.

(** After [Setup] the namespace has a bucket: the one it had, or an empty one. *)
Lemma Setup_lookup (ns : string) (s : user.memService) :
  user.users (user.Setup ns s).2 !! ns = Some (user.bucketOf s ns).
Proof.
  unfold user.Setup, user.bucketOf. rewrite lookup_total_alt.
  destruct (user.users s !! ns) as [b|] eqn:Hb; simpl; [done|].
  by rewrite lookup_insert_eq.
Qed.

(** [Setup] changes no bucket's content. *)
Lemma bucketOf_Setup (ns ns' : string) (s : user.memService) :
  user.bucketOf (user.Setup ns s).2 ns' = user.bucketOf s ns'.
Proof.
  unfold user.Setup, user.bucketOf. rewrite !lookup_total_alt.
  destruct (user.users s !! ns) as [b|] eqn:Hb; simpl; [done|].
  destruct (decide (ns = ns')) as [<-|Hne].
  - by rewrite lookup_insert_eq, Hb.
  - by rewrite lookup_insert_ne.
Qed.

(** The state [Setup] leaves, spelled out. *)
Lemma Setup_users (ns : string) (s : user.memService) :
  user.users (user.Setup ns s).2 = <[ns := user.bucketOf s ns]> (user.users s).
Proof.
  unfold user.Setup, user.bucketOf. rewrite lookup_total_alt.
  destruct (user.users s !! ns) as [b|] eqn:Hb; simpl; [|done].
  by rewrite insert_id.
Qed.

(** C9: [Setup] never fails and is idempotent, creating an empty bucket when
    there is none and changing nothing otherwise; [Teardown] never fails and
    removes the bucket, changing nothing when there is none; [Teardown] then
    [Setup] leaves the namespace with an empty bucket and every other
    namespace as it was. *)
Theorem lifecycle (ns : string) (s : user.memService) :
  (user.Setup ns s).1 = None ∧
  user.Setup ns (user.Setup ns s).2 = user.Setup ns s ∧
  (user.users s !! ns = None →
     user.users (user.Setup ns s).2 = <[ns := ∅]> (user.users s)) ∧
  (is_Some (user.users s !! ns) → (user.Setup ns s).2 = s) ∧
  (user.Teardown ns s).1 = None ∧
  user.users (user.Teardown ns s).2 = delete ns (user.users s) ∧
  (user.users s !! ns = None → (user.Teardown ns s).2 = s) ∧
  user.users (user.Setup ns (user.Teardown ns s).2).2 = <[ns := ∅]> (user.users s).
Proof.
  split_and!.
  - apply Setup_nil.
  - rewrite (Setup_pair ns s) at 2.
    rewrite (Setup_pair ns (user.Setup ns s).2). f_equal.
    apply Setup_present. rewrite Setup_lookup. by eexists.
  - apply Setup_absent.
  - apply Setup_present.
  - unfold user.Teardown. by destruct (user.users s !! ns).
  - unfold user.Teardown. destruct (user.users s !! ns) eqn:Hb; simpl; [done|].
    by rewrite delete_id.
  - intros Hb. unfold user.Teardown. by rewrite Hb.
  - unfold user.Teardown. destruct (user.users s !! ns) eqn:Hb; simpl.
    + rewrite Setup_absent by (simpl; apply lookup_delete_eq).
      simpl. apply insert_delete_eq.
    + by apply Setup_absent.
Qed.

(** On the sample state: tearing the namespace down and setting it up again
    empties its bucket; setting up a namespace that exists changes nothing;
    tearing down one that never existed changes nothing. *)
Lemma lifecycle_witness :
  user.users (user.Setup "app" (user.Teardown "app" sample.state).2).2
    = <["app" := ∅]> (user.users sample.state) ∧
  (user.Setup "app" sample.state).2 = sample.state ∧
  (user.Teardown "other" sample.state).2 = sample.state ∧
  user.users (user.Setup "other" sample.state).2
    = <["other" := ∅]> (user.users sample.state).
Proof.
  destruct (lifecycle "app" sample.state) as (_ & _ & _ & Hkeep & _ & _ & _ & Hre).
  destruct (lifecycle "other" sample.state) as (_ & _ & Hnew & _ & _ & _ & Hgone & _).
  split_and!.
  - exact Hre.
  - apply Hkeep. by eexists.
  - by apply Hgone.
  - by apply Hnew.
Defined.

(** ** Writing into a bucket *)

Lemma store_Setup_users (ns : string) (id : N) (u : user.User.t) (s : user.memService) :
  user.users (user.store ns id u (user.Setup ns s).2)
  = <[ns := <[id := u]> (user.bucketOf s ns)]> (user.users s).
Proof.
  unfold user.store. simpl.
  rewrite bucketOf_Setup, Setup_users. apply insert_insert_eq.
Qed.

Lemma bucketOf_insert (ns ns' : string) (b : user.Map) (s s' : user.memService) :
  user.users s' = <[ns := b]> (user.users s) →
  user.bucketOf s' ns' = if decide (ns = ns') then b else user.bucketOf s ns'.
Proof.
  intros Hs. unfold user.bucketOf. rewrite !lookup_total_alt, Hs.
  destruct (decide (ns = ns')) as [<-|Hne].
  - by rewrite lookup_insert_eq.
  - by rewrite lookup_insert_ne.
Qed.

(** What [store] after [Setup] holds: the new record at its key, every other
    entry of every bucket as before. *)
Lemma store_Setup_lookup (ns ns' : string) (id k : N) (u : user.User.t)
    (s : user.memService) :
  user.bucketOf (user.store ns id u (user.Setup ns s).2) ns' !! k
  = if decide (ns = ns' ∧ id = k) then Some u else user.bucketOf s ns' !! k.
Proof.
  rewrite (bucketOf_insert ns ns' _ s _ (store_Setup_users ns id u s)).
  destruct (decide (ns = ns')) as [<-|Hne].
  - destruct (decide (id = k)) as [<-|Hk].
    + rewrite lookup_insert_eq. by rewrite decide_True.
    + rewrite lookup_insert_ne by done. rewrite decide_False; [done|]. by intros [_ ?].
  - rewrite decide_False; [done|]. by intros [? _].
Qed.

(** C10: [PutLastRead] never returns an error. When the bucket has no user
    under the id, the state is the one [Setup] leaves and every stored user
    is as before. When it has one, the record under the id afterwards has
    [LastRead] set to the time in UTC and every other field, [UpdatedAt]
    included, as before; every other entry of every bucket is as before. *)
Theorem PutLastRead_spec (ns : string) (userID : N) (ts : time.Time)
    (s : user.memService) :
  (user.PutLastRead ns userID ts s).1 = None ∧
  (user.bucketOf s ns !! userID = None →
     (user.PutLastRead ns userID ts s).2 = (user.Setup ns s).2 ∧
     ∀ ns' k, user.bucketOf (user.PutLastRead ns userID ts s).2 ns' !! k
              = user.bucketOf s ns' !! k) ∧
  (∀ u, user.bucketOf s ns !! userID = Some u →
     (∃ u', user.bucketOf (user.PutLastRead ns userID ts s).2 ns !! userID = Some u' ∧
        user.User.LastRead u' = time.UTC ts ∧
        user.User.CustomID u' = user.User.CustomID u ∧
        user.User.Deleted u' = user.User.Deleted u ∧
        user.User.Email u' = user.User.Email u ∧
        user.User.Enabled u' = user.User.Enabled u ∧
        user.User.ID u' = user.User.ID u ∧
        user.User.SocialIDs u' = user.User.SocialIDs u ∧
        user.User.Username u' = user.User.Username u ∧
        user.User.CreatedAt u' = user.User.CreatedAt u ∧
        user.User.UpdatedAt u' = user.User.UpdatedAt u) ∧
     ∀ ns' k, ¬ (ns = ns' ∧ userID = k) →
       user.bucketOf (user.PutLastRead ns userID ts s).2 ns' !! k
       = user.bucketOf s ns' !! k).
Proof.
  unfold user.PutLastRead. rewrite (Setup_pair ns s). rewrite bucketOf_Setup.
  split_and!.
  - by destruct (user.bucketOf s ns !! userID).
  - intros ->. simpl. split; [done|]. intros ns' k. by rewrite bucketOf_Setup.
  - intros u ->. simpl. split.
    + exists (user.User.setLastRead u (time.UTC ts)).
      rewrite store_Setup_lookup. by rewrite decide_True.
    + intros ns' k Hne. rewrite store_Setup_lookup. by rewrite decide_False.
Qed.

(** On the sample state: marking bob's last read changes that one field of
    that one record, and marking an unknown id changes nothing. *)
Lemma PutLastRead_witness :
  (∃ u', user.bucketOf (user.PutLastRead "app" 2 sample.clock sample.state).2 "app" !! 2%N
         = Some u' ∧
     user.User.LastRead u' = sample.at_ 99 ∧
     user.User.UpdatedAt u' = sample.at_ 30) ∧
  (user.PutLastRead "app" 8 sample.clock sample.state).2 = sample.state.
Proof.
  destruct (PutLastRead_spec "app" 2 sample.clock sample.state) as (_ & _ & Hhit).
  destruct (PutLastRead_spec "app" 8 sample.clock sample.state) as (_ & Hmiss & _).
  split.
  - destruct (Hhit sample.bob eq_refl)
      as [(u' & Hu' & Hlast & _ & _ & _ & _ & _ & _ & _ & _ & Hupd) _].
    exists u'. split_and!; [exact Hu'|exact Hlast|exact Hupd].
  - by destruct (Hmiss eq_refl) as [-> _].
Defined.

(** ** Order facts *)

Lemma StronglySorted_weaken {A} (R1 R2 : A → A → Prop) (l : list A) :
  (∀ a b, R1 a b → R2 a b) → StronglySorted R1 l → StronglySorted R2 l.
Proof.
  intros HR. induction 1 as [|x l _ IH Hx]; constructor; [done|].
  eapply Forall_impl; [exact Hx|]. auto.
Qed.

Lemma StronglySorted_take {A} (R : A → A → Prop) (n : nat) (l : list A) :
  StronglySorted R l → StronglySorted R (take n l).
Proof. rewrite <- (take_drop n l) at 1. apply StronglySorted_app_1_l. Qed.

Lemma StronglySorted_drop {A} (R : A → A → Prop) (n : nat) (l : list A) :
  StronglySorted R l → StronglySorted R (drop n l).
Proof. rewrite <- (take_drop n l) at 1. apply StronglySorted_app_1_r. Qed.

Lemma StronglySorted_filter_bool {A} (R : A → A → Prop) (P : A → bool) (l : list A) :
  StronglySorted R l → StronglySorted R (List.filter P l).
Proof.
  induction 1 as [|x l _ IH Hx]; simpl; [constructor|].
  destruct (P x); [|done]. constructor; [done|].
  rewrite Forall_forall in Hx |- *. intros y [Hy _]%filter_bool_elem_of. auto.
Qed.

Lemma sublist_filter_bool {A} (P : A → bool) (l1 l2 : list A) :
  l1 `sublist_of` l2 → List.filter P l1 `sublist_of` List.filter P l2.
Proof.
  induction 1 as [|x l1 l2 _ IH|x l1 l2 _ IH]; simpl.
  - constructor.
  - destruct (P x); [by constructor|done].
  - destruct (P x); [by constructor|done].
Qed.

Lemma user_less_StrictWeak : golang.StrictWeak user.less.
Proof.
  split; unfold user.less, time.After.
  - intros a b ?%Z.ltb_lt. apply Z.ltb_ge. lia.
  - intros a b c ?%Z.ltb_ge ?%Z.ltb_ge. apply Z.ltb_ge. lia.
Qed.

(** ** [Query] and [Count] *)

Section Reads.

Import golang.

Context {RT : Runtime}.

Lemma ToList_perm (b : user.Map) : user.ToList b ≡ₚ entities b.
Proof.
  unfold user.ToList, entities.
  rewrite sortSort_perm, (fold_left_snoc_map snd), app_nil_l.
  by rewrite mapRange_perm.
Qed.

Lemma ToList_newestFirst (b : user.Map) : newestFirst (user.ToList b).
Proof.
  unfold user.ToList, newestFirst.
  eapply StronglySorted_weaken; [|apply sortSort_ascending, user_less_StrictWeak].
  intros a c. unfold user.less, time.After. simpl. intros ?%Z.ltb_ge. lia.
Qed.

(** C4: [Query] returns the entities of the bucket that the filter keeps,
    most recently updated first, cut to the first [Limit] when [Limit] is
    positive. *)
Theorem Query_spec (ns : string) (opts : user.QueryOptions.t) (s : user.memService) :
  ∃ full : list user.User.t,
    full ≡ₚ List.filter (user.filterKeep opts) (entities (user.bucketOf s ns)) ∧
    newestFirst full ∧
    user.Query ns opts s =
      (serr.Ok (if 0 <? user.QueryOptions.Limit opts
                then take (Z.to_nat (user.QueryOptions.Limit opts)) full
                else full),
       (user.Setup ns s).2).
Proof.
  exists (List.filter (user.filterKeep opts) (user.ToList (user.bucketOf s ns))).
  split_and!.
  - apply filter_bool_perm, ToList_perm.
  - apply StronglySorted_filter_bool, ToList_newestFirst.
  - unfold user.Query. rewrite (Setup_pair ns s). simpl.
    rewrite bucketOf_Setup, filterList_filter. f_equal. f_equal.
    set (full := List.filter _ _). unfold gonum.len.
    destruct (Z.ltb_spec 0 (user.QueryOptions.Limit opts)) as [Hpos|Hpos]; simpl; [|done].
    destruct (Z.ltb_spec (user.QueryOptions.Limit opts) (Z.of_nat (length full)))
      as [Hlt|Hge]; [done|].
    symmetry. apply take_ge. lia.
Qed.

(** C7: [Count] is the number of the bucket's entities the filter keeps, and
    with [Limit] zero it is the length of what [Query] returns. *)
Theorem Count_spec (ns : string) (opts : user.QueryOptions.t) (s : user.memService) :
  user.Count ns opts s =
    (serr.Ok (Z.of_nat (length (List.filter (user.filterKeep opts)
                                  (entities (user.bucketOf s ns))))),
     (user.Setup ns s).2) ∧
  (user.QueryOptions.Limit opts = 0 →
     ∃ l, user.Query ns opts s = (serr.Ok l, (user.Setup ns s).2) ∧
          user.Count ns opts s = (serr.Ok (gonum.len l), (user.Setup ns s).2)).
Proof.
  assert (user.Count ns opts s =
    (serr.Ok (gonum.len (List.filter (user.filterKeep opts)
                           (user.ToList (user.bucketOf s ns)))),
     (user.Setup ns s).2)) as HCount.
  { unfold user.Count. rewrite (Setup_pair ns s). simpl.
    by rewrite bucketOf_Setup, filterList_filter. }
  split.
  - rewrite HCount. unfold gonum.len. do 3 f_equal.
    apply Permutation_length, filter_bool_perm, ToList_perm.
  - intros Hlim. eexists. split; [|exact HCount].
    unfold user.Query. rewrite (Setup_pair ns s). simpl.
    by rewrite bucketOf_Setup, filterList_filter, Hlim.
Qed.

End Reads.

(** On the sample state with the reference runtime: three users pass the
    empty filter, and [Query] without a limit returns three. *)
Lemma Count_witness :
  ∃ l, user.Query (RT := refRuntime) "app" (sample.page "" 0 0) sample.state
         = (serr.Ok l, (user.Setup "app" sample.state).2) ∧
       user.Count (RT := refRuntime) "app" (sample.page "" 0 0) sample.state
         = (serr.Ok (gonum.len l), (user.Setup "app" sample.state).2).
Proof.
  exact (proj2 (Count_spec (RT := refRuntime) "app" (sample.page "" 0 0) sample.state)
           eq_refl).
Defined.

(** On the sample state with a limit of two: the list the theorem speaks of
    exists for the reference runtime. *)
Lemma Query_spec_witness :
  ∃ full : list user.User.t,
    full ≡ₚ List.filter (user.filterKeep (RT := refRuntime) (sample.page "" 2 0))
              (entities (user.bucketOf sample.state "app")) ∧
    newestFirst full ∧
    user.Query (RT := refRuntime) "app" (sample.page "" 2 0) sample.state =
      (serr.Ok (take 2 full), (user.Setup "app" sample.state).2).
Proof.
  exact (Query_spec (RT := refRuntime) "app" (sample.page "" 2 0) sample.state).
Defined.

(** ** [Put] *)

(** The loop over the bucket: [keep] tells whether some record carries the
    id, and the input then has the creation time of one that does. *)
Lemma putLoop_spec (l : list (N * user.User.t)) (u : user.User.t) :
  match fold_left user.putStep l (false, u) with
  | (false, input) =>
      input = u ∧ ∀ kv, kv ∈ l → user.User.ID kv.2 ≠ user.User.ID u
  | (true, input) =>
      ∃ kv, kv ∈ l ∧ user.User.ID kv.2 = user.User.ID u ∧
            input = user.User.setCreatedAt u (user.User.CreatedAt kv.2)
  end.
Proof.
  induction l as [|kv l IH] using rev_ind; simpl.
  - split; [done|]. by intros kv ?%elem_of_nil.
  - rewrite fold_left_app. simpl.
    destruct (fold_left user.putStep l (false, u)) as [[] input]; simpl.
    + destruct IH as (kv' & Hin & Hid & ->). simpl.
      destruct (N.eqb_spec (user.User.ID kv.2) (user.User.ID u)) as [Heq|Hne].
      * exists kv. rewrite elem_of_app, list_elem_of_singleton. auto.
      * exists kv'. rewrite elem_of_app. auto.
    + destruct IH as [-> Hall].
      destruct (N.eqb_spec (user.User.ID kv.2) (user.User.ID u)) as [Heq|Hne].
      * exists kv. rewrite elem_of_app, list_elem_of_singleton. auto.
      * split; [done|].
        intros kv' [?|Hk%list_elem_of_singleton]%elem_of_app; [auto|by subst].
Qed.

Section Writes.

Import golang.

Context {RT : Runtime} {CO : user.Collaborators}.

(** The reads look at nothing but the bucket of their namespace. *)
Lemma reads_bucket (ns : string) (s1 s2 : user.memService) :
  user.bucketOf s1 ns = user.bucketOf s2 ns → sameReads ns s1 s2.
Proof.
  intros Hb opts. unfold user.Count, user.Query, user.Search.
  rewrite (Setup_pair ns s1), (Setup_pair ns s2), !bucketOf_Setup, Hb.
  split_and!; [done|done|].
  repeat match goal with |- context [if ?b then _ else _] => destruct b end; done.
Qed.

(** [Put] of a user with an id, once validation has passed. *)
Lemma Put_update_unfold (ns : string) (u : user.User.t) (clock : time.Time)
    (nextID : string → serr.error + N) (s : user.memService) :
  user.Validate u = None → user.User.ID u ≠ 0%N →
  user.Put ns u clock nextID s =
    let '(keep, input) :=
      fold_left user.putStep (mapRange (user.bucketOf s ns)) (false, u) in
    if negb keep then (serr.Err serr.ErrNotFound, (user.Setup ns s).2)
    else
      (serr.Ok (user.User.setUpdatedAt input (time.UTC clock)),
       user.store ns (user.User.ID input)
         (user.User.setUpdatedAt input (time.UTC clock)) (user.Setup ns s).2).
Proof.
  intros Hvalid Hid. unfold user.Put. rewrite (Setup_pair ns s), Hvalid.
  apply N.eqb_neq in Hid. rewrite Hid. simpl. by rewrite bucketOf_Setup.
Qed.

(** C2: for a user with a non-zero id that has passed the validation [Put]
    runs first, [Put] fails with [ErrNotFound] when no stored record carries
    the id; when one does, [Put] succeeds, and the record it returns and
    stores under the id has the creation time of a stored record with that
    id (the one under that key, when every record sits under its own id) and
    the clock's reading in UTC as its update time, whatever creation time
    the caller brings. When [old] is the stored record with that id, the
    creation time kept is the one of [old]. *)
Theorem Put_update (ns : string) (u : user.User.t) (clock : time.Time)
    (nextID : string → serr.error + N) (s : user.memService) :
  user.Validate u = None → user.User.ID u ≠ 0%N →
  ((∀ k v, user.bucketOf s ns !! k = Some v → user.User.ID v ≠ user.User.ID u) →
     user.Put ns u clock nextID s = (serr.Err serr.ErrNotFound, (user.Setup ns s).2)) ∧
  ((∃ k v, user.bucketOf s ns !! k = Some v ∧ user.User.ID v = user.User.ID u) →
     ∃ k old r,
       user.bucketOf s ns !! k = Some old ∧ user.User.ID old = user.User.ID u ∧
       (user.Put ns u clock nextID s).1 = serr.Ok r ∧
       user.bucketOf (user.Put ns u clock nextID s).2 ns !! user.User.ID u = Some r ∧
       user.User.CreatedAt r = user.User.CreatedAt old ∧
       user.User.UpdatedAt r = time.UTC clock ∧
       r = user.User.setUpdatedAt
             (user.User.setCreatedAt u (user.User.CreatedAt old)) (time.UTC clock) ∧
       ((∀ k' v, user.bucketOf s ns !! k' = Some v → user.User.ID v = k') →
          k = user.User.ID u)) ∧
  (∀ k old,
     user.bucketOf s ns !! k = Some old → user.User.ID old = user.User.ID u →
     (∀ k' v, user.bucketOf s ns !! k' = Some v →
              user.User.ID v = user.User.ID u → v = old) →
     ∃ r,
       (user.Put ns u clock nextID s).1 = serr.Ok r ∧
       user.bucketOf (user.Put ns u clock nextID s).2 ns !! user.User.ID u = Some r ∧
       user.User.CreatedAt r = user.User.CreatedAt old ∧
       user.User.UpdatedAt r = time.UTC clock).
Proof.
  intros Hvalid Hid.
  assert (((∀ k v, user.bucketOf s ns !! k = Some v → user.User.ID v ≠ user.User.ID u) →
     user.Put ns u clock nextID s = (serr.Err serr.ErrNotFound, (user.Setup ns s).2)) ∧
    ((∃ k v, user.bucketOf s ns !! k = Some v ∧ user.User.ID v = user.User.ID u) →
     ∃ k old r,
       user.bucketOf s ns !! k = Some old ∧ user.User.ID old = user.User.ID u ∧
       (user.Put ns u clock nextID s).1 = serr.Ok r ∧
       user.bucketOf (user.Put ns u clock nextID s).2 ns !! user.User.ID u = Some r ∧
       user.User.CreatedAt r = user.User.CreatedAt old ∧
       user.User.UpdatedAt r = time.UTC clock ∧
       r = user.User.setUpdatedAt
             (user.User.setCreatedAt u (user.User.CreatedAt old)) (time.UTC clock) ∧
       ((∀ k' v, user.bucketOf s ns !! k' = Some v → user.User.ID v = k') →
          k = user.User.ID u))) as [Hmiss Hhit].
  { rewrite (Put_update_unfold ns u clock nextID s Hvalid Hid).
    pose proof (putLoop_spec (mapRange (user.bucketOf s ns)) u) as Hloop.
    destruct (fold_left user.putStep _ _) as [[] input]; simpl.
    - destruct Hloop as ([k old] & Hin & Hold & ->). simpl in *.
      rewrite mapRange_perm in Hin. apply elem_of_map_to_list in Hin.
      split.
      + intros Hnone. by destruct (Hnone k old Hin).
      + intros _. exists k, old. eexists. split_and!; try done.
        * rewrite store_Setup_lookup. by rewrite decide_True.
        * intros Hkeys. rewrite <- Hold. symmetry. by apply Hkeys.
    - destruct Hloop as [-> Hall]. split; [done|].
      intros (k & v & Hkv & Hv). exfalso. apply (Hall (k, v)); [|done].
      by rewrite mapRange_perm, elem_of_map_to_list. }
  split_and!; [exact Hmiss|exact Hhit|].
  intros k old Hk Hold Huniq.
  destruct Hhit as (k' & old' & r & Hk' & Hold' & Hret & Hstored & Hcreated & Hupdated & _).
  { by exists k, old. }
  exists r. split_and!; try done.
  by rewrite Hcreated, (Huniq k' old' Hk' Hold').
Qed.

(** C6: when validation rejects the user, [Put] returns that error and
    leaves the service as it was: no entity is stored and none is modified
    (every bucket of every namespace holds what it held), every read of
    every namespace answers as before, and the state itself is the one
    before the call when the namespace had a bucket. What the [Setup] that
    [Put] runs first adds for a namespace without one is an empty bucket,
    which holds no entity and which no read tells from no bucket. *)
Theorem Put_invalid (ns : string) (u : user.User.t) (clock : time.Time)
    (nextID : string → serr.error + N) (s : user.memService) (e : serr.error) :
  user.Validate u = Some e →
  user.Put ns u clock nextID s = (serr.Err e, (user.Setup ns s).2) ∧
  (∀ ns', user.bucketOf (user.Put ns u clock nextID s).2 ns' = user.bucketOf s ns') ∧
  (∀ ns', sameReads ns' (user.Put ns u clock nextID s).2 s) ∧
  (is_Some (user.users s !! ns) → (user.Put ns u clock nextID s).2 = s) ∧
  (user.users s !! ns = None →
     user.users (user.Put ns u clock nextID s).2 = <[ns := ∅]> (user.users s)).
Proof.
  intros Hbad.
  assert (user.Put ns u clock nextID s = (serr.Err e, (user.Setup ns s).2)) as ->.
  { unfold user.Put. by rewrite (Setup_pair ns s), Hbad. }
  simpl. split_and!; [done| | |apply Setup_present|apply Setup_absent].
  - intros ns'. apply bucketOf_Setup.
  - intros ns'. apply reads_bucket, bucketOf_Setup.
Qed.

(** A first [Put] (id zero) of a user that passes validation: the generator's
    error is handed on with nothing stored; otherwise the record returned and
    stored under the new id carries that id, the given creation time, or the
    clock's reading in UTC when none was given, and the clock's reading in
    UTC as its update time. *)
Lemma Put_create (ns : string) (u : user.User.t) (clock : time.Time)
    (nextID : string → serr.error + N) (s : user.memService) :
  user.Validate u = None → user.User.ID u = 0%N →
  (∀ e, nextID (user.flakeNamespace ns) = inl e →
     user.Put ns u clock nextID s = (serr.Err e, (user.Setup ns s).2)) ∧
  (∀ id, nextID (user.flakeNamespace ns) = inr id →
     ∃ r, user.Put ns u clock nextID s
            = (serr.Ok r, user.store ns id r (user.Setup ns s).2) ∧
          user.User.ID r = id ∧
          user.User.CreatedAt r =
            (if time.IsZero (user.User.CreatedAt u) then time.UTC clock
             else user.User.CreatedAt u) ∧
          user.User.UpdatedAt r = time.UTC clock).
Proof.
  intros Hvalid Hid. unfold user.Put.
  rewrite (Setup_pair ns s), Hvalid, Hid. simpl. split.
  - by intros e ->.
  - intros id ->. eexists. split; [done|].
    by destruct (time.IsZero (user.User.CreatedAt u)).
Qed.

(** Every operation keeps each record under its own id. *)
Lemma wellKeyed_MemService : wellKeyed user.MemService.
Proof. intros ns k v. unfold user.bucketOf. simpl. by rewrite lookup_total_empty. Qed.

Lemma wellKeyed_Setup (ns : string) (s : user.memService) :
  wellKeyed s → wellKeyed (user.Setup ns s).2.
Proof. intros Hs ns' k v. rewrite bucketOf_Setup. apply Hs. Qed.

Lemma wellKeyed_store (ns : string) (u : user.User.t) (s : user.memService) :
  wellKeyed s → wellKeyed (user.store ns (user.User.ID u) u (user.Setup ns s).2).
Proof.
  intros Hs ns' k v. rewrite store_Setup_lookup.
  case_decide as Hk; [|apply Hs]. destruct Hk as [_ <-]. by intros [= <-].
Qed.

Lemma wellKeyed_Teardown (ns : string) (s : user.memService) :
  wellKeyed s → wellKeyed (user.Teardown ns s).2.
Proof.
  intros Hs ns' k v. unfold user.Teardown.
  destruct (user.users s !! ns) eqn:Hb; simpl; [|apply Hs].
  specialize (Hs ns' k v). unfold user.bucketOf in Hs |- *.
  rewrite lookup_total_alt in Hs |- *. cbn [user.users].
  destruct (decide (ns = ns')) as [<-|Hne].
  - by rewrite lookup_delete_eq.
  - by rewrite lookup_delete_ne.
Qed.

Lemma wellKeyed_PutLastRead (ns : string) (userID : N) (ts : time.Time)
    (s : user.memService) :
  wellKeyed s → wellKeyed (user.PutLastRead ns userID ts s).2.
Proof.
  intros Hs. unfold user.PutLastRead. rewrite (Setup_pair ns s), bucketOf_Setup.
  destruct (user.bucketOf s ns !! userID) as [u|] eqn:Hu; simpl.
  - rewrite <- (Hs ns userID u Hu) at 1.
    apply (wellKeyed_store ns (user.User.setLastRead u (time.UTC ts)) s Hs).
  - by apply wellKeyed_Setup.
Qed.

Lemma wellKeyed_Put (ns : string) (u : user.User.t) (clock : time.Time)
    (nextID : string → serr.error + N) (s : user.memService) :
  wellKeyed s → wellKeyed (user.Put ns u clock nextID s).2.
Proof.
  intros Hs. unfold user.Put. rewrite (Setup_pair ns s).
  destruct (user.Validate u); [by apply wellKeyed_Setup|].
  destruct (N.eqb (user.User.ID u) 0).
  - destruct (nextID _) as [e|id]; simpl; [by apply wellKeyed_Setup|].
    match goal with |- wellKeyed (user.store ns _ ?r _) =>
      apply (wellKeyed_store ns r s Hs) end.
  - destruct (fold_left _ _ _) as [[] input]; simpl; [|by apply wellKeyed_Setup].
    apply (wellKeyed_store ns (user.User.setUpdatedAt input (time.UTC clock)) s Hs).
Qed.

Lemma wellKeyed_reads (ns : string) (opts : user.QueryOptions.t) (s : user.memService) :
  wellKeyed s →
  wellKeyed (user.Count ns opts s).2 ∧
  wellKeyed (user.Query ns opts s).2 ∧
  wellKeyed (user.Search ns opts s).2.
Proof.
  intros Hs%(wellKeyed_Setup ns). unfold user.Count, user.Query, user.Search.
  rewrite (Setup_pair ns s). split_and!; [done|done|].
  repeat match goal with |- context [if ?b then _ else _] => destruct b end; done.
Qed.

(** The service keeps every record under its own id: [MemService()] starts
    that way, and [Setup], [Teardown], [PutLastRead], [Put] (whatever its
    outcome), [Count], [Query] and [Search] each leave a state that does
    when they start from one. *)
Lemma wellKeyed_operations :
  wellKeyed user.MemService ∧
  ∀ s, wellKeyed s →
    ∀ ns,
      wellKeyed (user.Setup ns s).2 ∧
      wellKeyed (user.Teardown ns s).2 ∧
      (∀ userID ts, wellKeyed (user.PutLastRead ns userID ts s).2) ∧
      (∀ u clock nextID, wellKeyed (user.Put ns u clock nextID s).2) ∧
      (∀ opts, wellKeyed (user.Count ns opts s).2 ∧
               wellKeyed (user.Query ns opts s).2 ∧
               wellKeyed (user.Search ns opts s).2).
Proof.
  split; [apply wellKeyed_MemService|]. intros s Hs ns. split_and!.
  - by apply wellKeyed_Setup.
  - by apply wellKeyed_Teardown.
  - intros userID ts. by apply wellKeyed_PutLastRead.
  - intros u clock nextID. by apply wellKeyed_Put.
  - intros opts. by apply wellKeyed_reads.
Qed.

End Writes.

(** ** Integer wrap-around *)

Lemma wrap_int_range (z : Z) : - 2 ^ 63 ≤ gonum.wrap_int z < 2 ^ 63.
Proof.
  unfold gonum.wrap_int.
  pose proof (Z.mod_pos_bound (z + 2 ^ 63) (2 ^ 64) ltac:(lia)). lia.
Qed.

Lemma wrap_int_small (z : Z) : - 2 ^ 63 ≤ z < 2 ^ 63 → gonum.wrap_int z = z.
Proof. intros Hz. unfold gonum.wrap_int. rewrite Z.mod_small; lia. Qed.

Lemma wrap_int_over (z : Z) :
  2 ^ 63 ≤ z < 2 ^ 63 + 2 ^ 64 → gonum.wrap_int z = z - 2 ^ 64.
Proof.
  intros Hz. unfold gonum.wrap_int.
  replace (z + 2 ^ 63) with (z - 2 ^ 64 + 2 ^ 63 + 1 * 2 ^ 64) by lia.
  rewrite Z_mod_plus_full, Z.mod_small; lia.
Qed.

(** ** Slices of pointers *)

Lemma omap_id_Some {A} (l : list A) : omap id (Some <$> l) = l.
Proof. induction l as [|x l IH]; csimpl; [done|]. by rewrite IH. Qed.

Lemma omap_id_None {A} (l : list (option A)) :
  Forall (λ o, o = None) l → omap id l = [].
Proof. induction 1 as [|o l -> _ IH]; csimpl; [done|]. exact IH. Qed.

(** The non-nil entries of a window onto a slice are a window onto its
    elements. *)
Lemma omap_id_window {A} (l : list A) (a b c : nat) :
  omap id (take a (drop b ((Some <$> l) ++ replicate c None))) = take a (drop b l).
Proof.
  rewrite drop_app, take_app, omap_app.
  rewrite <- fmap_drop, <- fmap_take, omap_id_Some.
  rewrite omap_id_None; [by rewrite app_nil_r|].
  apply Forall_take, Forall_drop, Forall_replicate. done.
Qed.

(** A slice expression within the length hands out elements only. *)
Lemma sliceExpr_within {A} (l : list A) (cap : nat) (lo hi : Z) :
  (length l ≤ cap)%nat → 0 ≤ lo → lo ≤ hi → hi ≤ Z.of_nat (length l) →
  golang.sliceExpr l cap lo hi
  = serr.Ok (Some <$> take (Z.to_nat (hi - lo)) (drop (Z.to_nat lo) l)).
Proof.
  intros Hcap Hlo Hhi Hlen. unfold golang.sliceExpr.
  destruct (Z.leb_spec 0 lo); [|lia].
  destruct (Z.leb_spec lo hi); [|lia].
  destruct (Z.leb_spec hi (Z.of_nat cap)); [|lia].
  simpl. f_equal.
  rewrite drop_app, take_app_le; [by rewrite fmap_take, fmap_drop|].
  rewrite length_drop, length_fmap. lia.
Qed.

Lemma sliceExpr_panics {A} (l : list A) (cap : nat) (lo hi : Z) :
  lo < 0 ∨ hi < lo ∨ Z.of_nat cap < hi →
  golang.sliceExpr l cap lo hi = serr.Panic "slice bounds out of range".
Proof.
  intros Hbad. unfold golang.sliceExpr.
  destruct (Z.leb_spec 0 lo); simpl; [|done].
  destruct (Z.leb_spec lo hi); simpl; [|done].
  destruct (Z.leb_spec hi (Z.of_nat cap)); simpl; [lia|done].
Qed.

(** ** [Search] *)

Section Searching.

Import golang.

Context {RT : Runtime} {CO : user.Collaborators}.

Lemma candidates_le_capacity ns opts s : candidates ns opts s ≤ capacity ns opts s.
Proof.
  unfold candidates, capacity, gonum.len.
  pose proof (appendCap_ge (length (ranked ns opts s))). lia.
Qed.

Lemma candidates_nonneg ns opts s : 0 ≤ candidates ns opts s.
Proof. unfold candidates, gonum.len. lia. Qed.

Lemma Search_state (ns : string) (opts : user.QueryOptions.t) (s : user.memService) :
  (user.Search ns opts s).2 = (user.Setup ns s).2.
Proof.
  unfold user.Search. rewrite (Setup_pair ns s).
  repeat match goal with |- context [if ?b then _ else _] => destruct b end; done.
Qed.

Lemma Search_empty_query (ns : string) (opts : user.QueryOptions.t) (s : user.memService) :
  user.QueryOptions.Query opts = "" →
  (user.Search ns opts s).1 = serr.Err (serr.Wrap serr.ErrInvalidQuery "param is empty" []).
Proof. intros Hq. unfold user.Search. by rewrite (Setup_pair ns s), Hq. Qed.

Lemma Search_unfold (ns : string) (opts : user.QueryOptions.t) (s : user.memService) :
  user.QueryOptions.Query opts ≠ "" →
  (user.Search ns opts s).1 =
    if candidates ns opts s <? offsetOf opts then serr.Ok []
    else if (user.QueryOptions.Limit opts =? 0) && (user.QueryOptions.Offset opts =? 0)
    then serr.Ok (Some <$> ranked ns opts s)
    else sliceExpr (ranked ns opts s) (appendCap (length (ranked ns opts s)))
           (offsetOf opts) (gonum.int_add (offsetOf opts) (user.QueryOptions.Limit opts)).
Proof.
  intros Hq. unfold user.Search. rewrite (Setup_pair ns s).
  apply String.eqb_neq in Hq. rewrite Hq. rewrite bucketOf_Setup.
  unfold candidates, offsetOf, ranked, distanceTo.
  rewrite SliceStable_length. simpl.
  repeat match goal with |- context [if ?b then _ else _] => destruct b end; done.
Qed.

End Searching.

Section SearchResults.

Import golang.

Context {RT : Runtime} {CO : user.Collaborators}.

Lemma distance_less_StrictWeak (opts : user.QueryOptions.t) :
  StrictWeak (λ a b, distanceTo opts a <? distanceTo opts b).
Proof.
  split.
  - intros a b ?%Z.ltb_lt. apply Z.ltb_ge. lia.
  - intros a b c ?%Z.ltb_ge ?%Z.ltb_ge. apply Z.ltb_ge. lia.
Qed.

Lemma ranked_nearestFirst ns opts s : nearestFirst opts (ranked ns opts s).
Proof.
  unfold nearestFirst, ranked.
  eapply StronglySorted_weaken;
    [|apply SliceStable_ascending, distance_less_StrictWeak].
  intros a b. simpl. intros ?%Z.ltb_ge. lia.
Qed.

Lemma ranked_stable ns opts s d :
  atDistance opts d (ranked ns opts s)
  = atDistance opts d (user.ToList (user.bucketOf s ns)).
Proof.
  unfold atDistance, ranked. apply SliceStable_stable.
  intros a b ->%Z.eqb_eq <-%Z.eqb_eq. apply Z.ltb_irrefl.
Qed.

(** C3 (amended): [Search] returns an error exactly when the query text is
    empty, and the error is then the wrapped [ErrInvalidQuery]. With a query
    text: an offset past the candidate count gives the empty list; limit and
    offset both zero give the whole ranked list; otherwise an offset and a
    limit that are not negative and reach no further than the candidate count
    give that window of the ranked list (the candidate count fitting an
    [int], as the length of a slice does), and a negative limit, or a window
    reaching past the capacity of the ranked slice, panics. *)
Theorem Search_outcomes (ns : string) (opts : user.QueryOptions.t) (s : user.memService) :
  (∀ e, (user.Search ns opts s).1 = serr.Err e ↔
        user.QueryOptions.Query opts = "" ∧
        e = serr.Wrap serr.ErrInvalidQuery "param is empty" []) ∧
  (user.QueryOptions.Query opts ≠ "" →
   candidates ns opts s < offsetOf opts →
     (user.Search ns opts s).1 = serr.Ok []) ∧
  (user.QueryOptions.Query opts ≠ "" →
   user.QueryOptions.Limit opts = 0 → user.QueryOptions.Offset opts = 0 →
     (user.Search ns opts s).1 = serr.Ok (Some <$> ranked ns opts s)) ∧
  (user.QueryOptions.Query opts ≠ "" →
   ¬ (user.QueryOptions.Limit opts = 0 ∧ user.QueryOptions.Offset opts = 0) →
   candidates ns opts s < 2 ^ 63 →
   0 ≤ offsetOf opts → 0 ≤ user.QueryOptions.Limit opts →
   offsetOf opts + user.QueryOptions.Limit opts ≤ candidates ns opts s →
     (user.Search ns opts s).1 =
       serr.Ok (Some <$> take (Z.to_nat (user.QueryOptions.Limit opts))
                           (drop (Z.to_nat (offsetOf opts)) (ranked ns opts s)))) ∧
  (user.QueryOptions.Query opts ≠ "" →
   ¬ (user.QueryOptions.Limit opts = 0 ∧ user.QueryOptions.Offset opts = 0) →
   offsetOf opts ≤ candidates ns opts s →
   - 2 ^ 63 ≤ user.QueryOptions.Limit opts < 2 ^ 63 →
   user.QueryOptions.Limit opts < 0 ∨
   capacity ns opts s < offsetOf opts + user.QueryOptions.Limit opts →
     (user.Search ns opts s).1 = serr.Panic "slice bounds out of range").
Proof.
  assert (∀ P : Prop,
    ¬ (user.QueryOptions.Limit opts = 0 ∧ user.QueryOptions.Offset opts = 0) →
    (user.QueryOptions.Limit opts =? 0) && (user.QueryOptions.Offset opts =? 0) = false)
    as Hboth.
  { intros _ Hn. apply andb_false_iff.
    destruct (Z.eqb_spec (user.QueryOptions.Limit opts) 0); [|auto].
    destruct (Z.eqb_spec (user.QueryOptions.Offset opts) 0); [|auto].
    by destruct Hn. }
  split_and!.
  - intros e. split.
    + destruct (decide (user.QueryOptions.Query opts = "")) as [Hq|Hq].
      * rewrite (Search_empty_query ns opts s Hq). by intros [= <-].
      * rewrite (Search_unfold ns opts s Hq). unfold sliceExpr.
        repeat match goal with |- context [if ?b then _ else _] => destruct b end; done.
    + intros [Hq ->]. by apply Search_empty_query.
  - intros Hq Hoff. rewrite (Search_unfold ns opts s Hq).
    apply Z.ltb_lt in Hoff. by rewrite Hoff.
  - intros Hq Hlim Hoff. rewrite (Search_unfold ns opts s Hq).
    unfold offsetOf, gonum.int_of_uint. rewrite Hlim, Hoff. simpl.
    pose proof (candidates_nonneg ns opts s).
    rewrite wrap_int_small by lia.
    by destruct (Z.ltb_spec (candidates ns opts s) 0); [lia|].
  - intros Hq Hn Hfit Hoff Hlim Hend. rewrite (Search_unfold ns opts s Hq).
    destruct (Z.ltb_spec (candidates ns opts s) (offsetOf opts)); [lia|].
    rewrite (Hboth True Hn). unfold gonum.int_add.
    rewrite wrap_int_small by lia. unfold candidates, gonum.len in *.
    rewrite sliceExpr_within; [|apply appendCap_ge|lia..].
    do 3 f_equal. lia.
  - intros Hq Hn Hoff Hlim Hbad. rewrite (Search_unfold ns opts s Hq).
    destruct (Z.ltb_spec (candidates ns opts s) (offsetOf opts)); [lia|].
    rewrite (Hboth True Hn). apply sliceExpr_panics. fold (capacity ns opts s).
    pose proof (candidates_le_capacity ns opts s).
    pose proof (wrap_int_range (user.QueryOptions.Offset opts)) as Hr.
    fold (gonum.int_of_uint (user.QueryOptions.Offset opts)) in Hr. fold (offsetOf opts) in Hr.
    destruct (Z.lt_ge_cases (offsetOf opts) 0) as [?|Hpos]; [by left|]. right.
    unfold gonum.int_add.
    destruct (Z.lt_ge_cases (offsetOf opts + user.QueryOptions.Limit opts) (2 ^ 63)).
    + rewrite wrap_int_small by lia. lia.
    + rewrite wrap_int_over by lia. lia.
Qed.

(** C8: the users in a result of [Search] come nearest first, and those at
    one distance come in the order the bucket's list had them before the
    sort. *)
Theorem Search_ranked (ns : string) (opts : user.QueryOptions.t) (s : user.memService)
    (l : list (option user.User.t)) :
  user.QueryOptions.Query opts ≠ "" →
  (user.Search ns opts s).1 = serr.Ok l →
  nearestFirst opts (omap id l) ∧
  ∀ d, atDistance opts d (omap id l)
       `sublist_of` atDistance opts d (user.ToList (user.bucketOf s ns)).
Proof.
  intros Hq. rewrite (Search_unfold ns opts s Hq).
  pose proof (ranked_nearestFirst ns opts s) as Hsorted.
  destruct (_ <? _).
  { intros [= <-]. split; [constructor|]. intros d. apply sublist_nil_l. }
  destruct (_ && _).
  { intros [= <-]. rewrite omap_id_Some. split; [done|].
    intros d. by rewrite ranked_stable. }
  unfold sliceExpr. destruct (_ && _); [|done]. intros [= <-].
  rewrite omap_id_window. split.
  - by apply StronglySorted_take, StronglySorted_drop.
  - intros d. rewrite <- ranked_stable. apply sublist_filter_bool.
    etrans; [apply sublist_take|apply sublist_drop].
Qed.

(** A window reaching past the candidates but not past the capacity is
    handed out with nil entries at its end. *)
Lemma Search_past_length (ns : string) (opts : user.QueryOptions.t) (s : user.memService) :
  user.QueryOptions.Query opts ≠ "" →
  ¬ (user.QueryOptions.Limit opts = 0 ∧ user.QueryOptions.Offset opts = 0) →
  0 ≤ offsetOf opts ≤ candidates ns opts s →
  candidates ns opts s < offsetOf opts + user.QueryOptions.Limit opts ≤ capacity ns opts s →
  capacity ns opts s < 2 ^ 63 →
  (user.Search ns opts s).1 =
    serr.Ok ((Some <$> drop (Z.to_nat (offsetOf opts)) (ranked ns opts s)) ++
             replicate (Z.to_nat (offsetOf opts + user.QueryOptions.Limit opts
                                  - candidates ns opts s)) None).
Proof.
  intros Hq Hn Hoff Hend Hcap. rewrite (Search_unfold ns opts s Hq).
  destruct (Z.ltb_spec (candidates ns opts s) (offsetOf opts)); [lia|].
  replace ((user.QueryOptions.Limit opts =? 0) && (user.QueryOptions.Offset opts =? 0))
    with false.
  2:{ symmetry. apply andb_false_iff.
      destruct (Z.eqb_spec (user.QueryOptions.Limit opts) 0); [|auto].
      destruct (Z.eqb_spec (user.QueryOptions.Offset opts) 0); [|auto].
      by destruct Hn. }
  unfold gonum.int_add, capacity, candidates, gonum.len, sliceExpr in *.
  rewrite wrap_int_small by lia.
  destruct (Z.leb_spec 0 (offsetOf opts)); [|lia].
  destruct (Z.leb_spec (offsetOf opts) (offsetOf opts + user.QueryOptions.Limit opts)); [|lia].
  destruct (Z.leb_spec (offsetOf opts + user.QueryOptions.Limit opts)
              (Z.of_nat (appendCap (length (ranked ns opts s))))); [|lia].
  cbn [andb]. f_equal.
  rewrite drop_app, take_app, length_drop, length_fmap, fmap_drop.
  rewrite take_ge by (rewrite length_drop, length_fmap; lia). f_equal.
  rewrite drop_replicate, take_replicate. f_equal. lia.
Qed.

End SearchResults.

(** ** The properties on the sample data

    Everything below runs the operations with the reference runtime and the
    reference collaborators. *)

Lemma sample_keys :
  map_Forall (λ k v, user.User.ID v = k ∧ (k ≤ 3)%N) (user.bucketOf sample.state "app").
Proof. apply (bool_decide_unpack _). by vm_compute. Qed.

(** On the sample state: an update for the unknown id 8 fails with
    [ErrNotFound]; an update of bob that brings its own creation time is
    stored and returned with bob's old creation time and the clock's reading
    in UTC. *)
Lemma Put_update_witness :
  user.Put (RT := refRuntime) (CO := refCollaborators)
    "app" (sample.mkUser 8 "eve" 1 1) sample.clock sample.nextID sample.state
    = (serr.Err serr.ErrNotFound, (user.Setup "app" sample.state).2) ∧
  ∃ r,
    (user.Put (RT := refRuntime) (CO := refCollaborators)
       "app" (sample.mkUser 2 "bobby" 500 0) sample.clock sample.nextID sample.state).1
      = serr.Ok r ∧
    user.bucketOf
      (user.Put (RT := refRuntime) (CO := refCollaborators)
         "app" (sample.mkUser 2 "bobby" 500 0) sample.clock sample.nextID sample.state).2
      "app" !! 2%N = Some r ∧
    user.User.CreatedAt r = sample.at_ 6 ∧
    user.User.UpdatedAt r = sample.at_ 99.
Proof.
  split.
  - destruct (Put_update (RT := refRuntime) (CO := refCollaborators)
                "app" (sample.mkUser 8 "eve" 1 1) sample.clock sample.nextID
                sample.state eq_refl ltac:(done)) as (Hmiss & _).
    apply Hmiss.
    intros k v Hkv. destruct (sample_keys k v Hkv) as [-> Hle]. simpl. lia.
  - destruct (Put_update (RT := refRuntime) (CO := refCollaborators)
                "app" (sample.mkUser 2 "bobby" 500 0) sample.clock sample.nextID
                sample.state eq_refl ltac:(done)) as (_ & _ & Hthe).
    apply (Hthe 2%N sample.bob); [done|done|].
    intros k v Hkv Hv. destruct (sample_keys k v Hkv) as [Hk _].
    simpl in Hv. rewrite Hv in Hk. subst k.
    change (Some sample.bob = Some v) in Hkv. by injection Hkv as <-.
Defined.

(** On the sample state, whose namespace has a bucket, the rejected [Put]
    changes nothing at all. *)
Lemma Put_invalid_witness :
  user.Put (RT := refRuntime) (CO := refCollaborators)
    "app" (sample.mkUser 2 "" 1 1) sample.clock sample.nextID sample.state
  = (serr.Err (serr.ErrExternal "username must be set"), sample.state).
Proof.
  destruct (Put_invalid (RT := refRuntime) (CO := refCollaborators)
              "app" (sample.mkUser 2 "" 1 1) sample.clock sample.nextID sample.state
              (serr.ErrExternal "username must be set") eq_refl)
    as (Hput & _ & _ & Hsame & _).
  rewrite Hput in Hsame |- *. f_equal; apply Hsame; by eexists.
Defined.

(** C3, as it stands, fails for a negative limit: the offset does not exceed
    the candidate count, limit and offset are not both zero, offset plus
    limit does not exceed the candidate count, and the call panics instead of
    returning a slice. *)
Lemma Search_negative_limit_panics :
  let o := sample.page "ali" (-1) 0 in
  user.QueryOptions.Query o ≠ "" ∧
  ¬ (candidates (RT := refRuntime) (CO := refCollaborators) "app" o sample.state
       < user.QueryOptions.Offset o) ∧
  ¬ (user.QueryOptions.Limit o = 0 ∧ user.QueryOptions.Offset o = 0) ∧
  ¬ (candidates (RT := refRuntime) (CO := refCollaborators) "app" o sample.state
       < user.QueryOptions.Offset o + user.QueryOptions.Limit o) ∧
  (user.Search (RT := refRuntime) (CO := refCollaborators) "app" o sample.state).1
    = serr.Panic "slice bounds out of range".
Proof.
  split_and!; [done| | | |by vm_compute].
  - by vm_compute.
  - by intros [? _].
  - by vm_compute.
Qed.

(** On the sample state: an empty query text is an error; an offset of 4
    with three candidates gives the empty list; limit 1 at offset 1 gives the
    second of the ranked users; a limit of 5, past the capacity of 4,
    panics. *)
Lemma Search_outcomes_witness :
  (user.Search (RT := refRuntime) (CO := refCollaborators)
     "app" (sample.page "" 1 0) sample.state).1
    = serr.Err (serr.Wrap serr.ErrInvalidQuery "param is empty" []) ∧
  (user.Search (RT := refRuntime) (CO := refCollaborators)
     "app" (sample.page "ali" 1 4) sample.state).1 = serr.Ok [] ∧
  (user.Search (RT := refRuntime) (CO := refCollaborators)
     "app" (sample.page "ali" 1 1) sample.state).1
    = serr.Ok (Some <$> take 1 (drop 1
        (ranked (RT := refRuntime) (CO := refCollaborators)
           "app" (sample.page "ali" 1 1) sample.state))) ∧
  (user.Search (RT := refRuntime) (CO := refCollaborators)
     "app" (sample.page "ali" 5 0) sample.state).1
    = serr.Panic "slice bounds out of range".
Proof.
  split_and!.
  - destruct (Search_outcomes (RT := refRuntime) (CO := refCollaborators)
                "app" (sample.page "" 1 0) sample.state) as (Herr & _).
    by apply Herr.
  - destruct (Search_outcomes (RT := refRuntime) (CO := refCollaborators)
                "app" (sample.page "ali" 1 4) sample.state) as (_ & Hpast & _).
    apply Hpast; [done|by vm_compute].
  - destruct (Search_outcomes (RT := refRuntime) (CO := refCollaborators)
                "app" (sample.page "ali" 1 1) sample.state) as (_ & _ & _ & Hwindow & _).
    apply Hwindow; [done|by intros [? _]|by vm_compute..].
  - destruct (Search_outcomes (RT := refRuntime) (CO := refCollaborators)
                "app" (sample.page "ali" 5 0) sample.state) as (_ & _ & _ & _ & Hpanic).
    apply Hpanic; [done|by intros [? _]|by vm_compute|by vm_compute|right; by vm_compute].
Defined.

(** On the sample state, the search for "ali": alice is at distance 2, bob
    and alicia at 3, and bob, updated last, stands before alicia in the
    bucket's list and so in the result. *)
Lemma Search_ranked_witness :
  nearestFirst (CO := refCollaborators) (sample.page "ali" 0 0)
    (omap id [Some sample.alice; Some sample.bob; Some sample.alicia]) ∧
  ∀ d, atDistance (CO := refCollaborators) (sample.page "ali" 0 0) d
         (omap id [Some sample.alice; Some sample.bob; Some sample.alicia])
       `sublist_of`
       atDistance (CO := refCollaborators) (sample.page "ali" 0 0) d
         (user.ToList (RT := refRuntime) (user.bucketOf sample.state "app")).
Proof.
  apply (Search_ranked (RT := refRuntime) (CO := refCollaborators)
           "app" (sample.page "ali" 0 0) sample.state); [done|by vm_compute].
Defined.

(** ** The reaction package's [Map.ToList] *)

(** [ToList] returns the values of the map, each as often as the map holds
    it, most recently updated first. *)
Lemma reaction_ToList_spec {RT : golang.Runtime} (m : reaction.Map) :
  reaction.ToList m ≡ₚ (map_to_list m).*2 ∧
  StronglySorted
    (λ a b, time.instant (reaction.Reaction.UpdatedAt b)
            ≤ time.instant (reaction.Reaction.UpdatedAt a))
    (reaction.ToList m).
Proof.
  unfold reaction.ToList. split.
  - rewrite golang.sortSort_perm, (fold_left_snoc_map snd), app_nil_l.
    by rewrite golang.mapRange_perm.
  - eapply StronglySorted_weaken; [|apply golang.sortSort_ascending].
    + intros a b. unfold reaction.less, time.After. simpl. intros ?%Z.ltb_ge. lia.
    + split; unfold reaction.less, time.After.
      * intros a b ?%Z.ltb_lt. apply Z.ltb_ge. lia.
      * intros a b c ?%Z.ltb_ge ?%Z.ltb_ge. apply Z.ltb_ge. lia.
Qed.

(** ** Worked examples *)

(** [Query] with a limit of two on the sample state: bob, updated at 30, then
    alicia, updated at 20. *)
Example Query_sample :
  (user.Query (RT := refRuntime) "app" (sample.page "" 2 0) sample.state).1
  = serr.Ok [sample.bob; sample.alicia].
Proof. by vm_compute. Qed.

(** [Search] for "ali" on the sample state. *)
Example Search_sample :
  (user.Search (RT := refRuntime) (CO := refCollaborators)
     "app" (sample.page "ali" 0 0) sample.state).1
  = serr.Ok [Some sample.alice; Some sample.bob; Some sample.alicia].
Proof. by vm_compute. Qed.

(** With capacities that double, a limit of four on three candidates is
    within the capacity: the result ends in a nil entry. *)
Example Search_sample_past_length :
  (user.Search (RT := refRuntime) (CO := refCollaborators)
     "app" (sample.page "ali" 4 0) sample.state).1
  = serr.Ok [Some sample.alice; Some sample.bob; Some sample.alicia; None].
Proof. by vm_compute. Qed.

(** A first [Put] takes its id from the generator and its creation time
    from the clock. *)
Example Put_create_sample :
  (user.Put (RT := refRuntime) (CO := refCollaborators)
     "app" (sample.mkUser 0 "carol" 0 0) sample.clock sample.nextID sample.state).1
  = serr.Ok (sample.mkUser 9 "carol" 99 99).
Proof. by vm_compute. Qed.

(** On the sample state, offset 1 and limit 3 reach one slot past the three
    candidates and stay within the capacity of four. *)
Lemma Search_past_length_witness :
  (user.Search (RT := refRuntime) (CO := refCollaborators)
     "app" (sample.page "ali" 3 1) sample.state).1
  = serr.Ok ((Some <$> drop 1 (ranked (RT := refRuntime) (CO := refCollaborators)
                                 "app" (sample.page "ali" 3 1) sample.state))
             ++ replicate 1 None).
Proof.
  apply (Search_past_length (RT := refRuntime) (CO := refCollaborators)
           "app" (sample.page "ali" 3 1) sample.state);
    [done|by intros [? _]|by vm_compute..].
Defined.

(** On the sample state a first [Put] of carol is stored under the
    generator's id 9 with the clock's reading as both times. *)
Lemma Put_create_witness :
  ∃ r, user.Put (RT := refRuntime) (CO := refCollaborators)
         "app" (sample.mkUser 0 "carol" 0 0) sample.clock sample.nextID sample.state
         = (serr.Ok r, user.store "app" 9 r (user.Setup "app" sample.state).2) ∧
       user.User.ID r = 9%N ∧
       user.User.CreatedAt r = sample.at_ 99 ∧
       user.User.UpdatedAt r = sample.at_ 99.
Proof.
  exact (proj2 (Put_create (RT := refRuntime) (CO := refCollaborators)
                  "app" (sample.mkUser 0 "carol" 0 0) sample.clock sample.nextID
                  sample.state eq_refl eq_refl) 9%N eq_refl).
Defined.

(** The sample state keeps its records under their ids, and so does what
    [Put] leaves of it. *)
Lemma wellKeyed_operations_witness :
  wellKeyed
    (user.Put (RT := refRuntime) (CO := refCollaborators)
       "app" (sample.mkUser 2 "bobby" 500 0) sample.clock sample.nextID sample.state).2.
Proof.
  destruct (wellKeyed_operations (RT := refRuntime) (CO := refCollaborators))
    as [_ Hkeep].
  apply Hkeep.
  intros ns k v. destruct (decide (ns = "app")) as [->|Hne].
  - intros Hkv. by destruct (sample_keys k v Hkv).
  - unfold user.bucketOf. rewrite lookup_total_alt. simpl.
    rewrite lookup_singleton_ne by done. simpl. by rewrite lookup_empty.
Defined.

(** * Further properties of the code *)

(** ** The reaction list as a [sort.Interface] *)

(** [OwnerIDs] lists the owner of every reaction, in the order of the list
    and once per reaction, equal owners included. *)
Lemma OwnerIDs_spec (rs : reaction.List) :
  reaction.OwnerIDs rs = reaction.Reaction.OwnerID <$> rs ∧
  length (reaction.OwnerIDs rs) = length rs ∧
  ∀ i, reaction.OwnerIDs rs !! i = reaction.Reaction.OwnerID <$> rs !! i.
Proof.
  assert (reaction.OwnerIDs rs = reaction.Reaction.OwnerID <$> rs) as ->.
  { unfold reaction.OwnerIDs.
    by rewrite (fold_left_snoc_map reaction.Reaction.OwnerID), app_nil_l. }
  split_and!; [done|apply length_fmap|]. intros i. apply list_lookup_fmap.
Qed.

Lemma LessPtr_Some (rs : list (option reaction.Reaction.t)) (i j : nat) (b : bool) :
  reaction.LessPtr rs i j = Some b ↔
  ∃ x y, rs !! i = Some (Some x) ∧ rs !! j = Some (Some y) ∧ reaction.less x y = b.
Proof.
  unfold reaction.LessPtr. split.
  - destruct (rs !! i) as [[x|]|], (rs !! j) as [[y|]|]; try done.
    intros [= <-]. by exists x, y.
  - by intros (x & y & -> & -> & <-).
Qed.

(** On a slice of reaction pointers, [Less(i, j)] answers exactly when both
    indices are within the slice and neither element is nil; it panics
    otherwise. Where it answers (the times carrying no monotonic reading) it
    is a strict weak order, which is what [sort.Sort] asks of it:
    irreflexive, asymmetric, transitive, and with "not less" transitive too.
    On a list without nil elements it is [Less] of the list. *)
Lemma Less_strict_weak (rs : list (option reaction.Reaction.t)) :
  (∀ i j, is_Some (reaction.LessPtr rs i j) ↔
          ∃ x y, rs !! i = Some (Some x) ∧ rs !! j = Some (Some y)) ∧
  (∀ i j, (length rs ≤ i)%nat ∨ (length rs ≤ j)%nat ∨
          rs !! i = Some None ∨ rs !! j = Some None →
          reaction.LessPtr rs i j = None) ∧
  (∀ i x, rs !! i = Some (Some x) → reaction.LessPtr rs i i = Some false) ∧
  (∀ i j, reaction.LessPtr rs i j = Some true → reaction.LessPtr rs j i = Some false) ∧
  (∀ i j k, reaction.LessPtr rs i j = Some true → reaction.LessPtr rs j k = Some true →
            reaction.LessPtr rs i k = Some true) ∧
  (∀ i j k, reaction.LessPtr rs i j = Some false → reaction.LessPtr rs j k = Some false →
            reaction.LessPtr rs i k = Some false) ∧
  (∀ (l : reaction.List) i j,
     reaction.LessPtr (Some <$> l) i j = reaction.Less l i j).
Proof.
  split_and!.
  - intros i j. split.
    + intros [b (x & y & Hx & Hy & _)%LessPtr_Some]. by exists x, y.
    + intros (x & y & Hx & Hy). exists (reaction.less x y).
      apply LessPtr_Some. by exists x, y.
  - intros i j Hbad. unfold reaction.LessPtr.
    destruct Hbad as [Hi|[Hj|[->|Hj]]].
    + by rewrite (lookup_ge_None_2 rs i Hi).
    + rewrite (lookup_ge_None_2 rs j Hj). by destruct (rs !! i) as [[?|]|].
    + done.
    + rewrite Hj. by destruct (rs !! i) as [[?|]|].
  - intros i x Hx. apply LessPtr_Some. exists x, x.
    split_and!; [done|done|]. unfold reaction.less, time.After. apply Z.ltb_irrefl.
  - intros i j (x & y & Hx & Hy & Hlt)%LessPtr_Some. apply LessPtr_Some.
    exists y, x. split_and!; [done|done|].
    unfold reaction.less, time.After in *. apply Z.ltb_lt in Hlt. apply Z.ltb_ge. lia.
  - intros i j k (x & y & Hx & Hy & Hxy)%LessPtr_Some
      (y' & z & Hy' & Hz & Hyz)%LessPtr_Some.
    rewrite Hy in Hy'. injection Hy' as <-. apply LessPtr_Some.
    exists x, z. split_and!; [done|done|].
    unfold reaction.less, time.After in *.
    apply Z.ltb_lt in Hxy, Hyz. apply Z.ltb_lt. lia.
  - intros i j k (x & y & Hx & Hy & Hxy)%LessPtr_Some
      (y' & z & Hy' & Hz & Hyz)%LessPtr_Some.
    rewrite Hy in Hy'. injection Hy' as <-. apply LessPtr_Some.
    exists x, z. split_and!; [done|done|].
    unfold reaction.less, time.After in *.
    apply Z.ltb_ge in Hxy, Hyz. apply Z.ltb_ge. lia.
  - intros l i j. unfold reaction.LessPtr, reaction.Less.
    rewrite !list_lookup_fmap. by destruct (l !! i), (l !! j).
Qed.

Lemma Swap_lookup (rs rs' : reaction.List) (i j k : nat) :
  reaction.Swap rs i j = Some rs' →
  rs' !! k = rs !! (if decide (k = i) then j else if decide (k = j) then i else k).
Proof.
  unfold reaction.Swap.
  destruct (rs !! j) as [b|] eqn:Hb; [|done].
  destruct (rs !! i) as [a|] eqn:Ha; [|done]. intros [= <-].
  pose proof (lookup_lt_Some _ _ _ Ha). pose proof (lookup_lt_Some _ _ _ Hb).
  destruct (decide (k = j)) as [->|Hkj].
  - rewrite list_lookup_insert_eq by (by rewrite length_insert).
    destruct (decide (j = i)) as [->|]; congruence.
  - rewrite list_lookup_insert_ne by done.
    destruct (decide (k = i)) as [->|Hki].
    + by rewrite list_lookup_insert_eq.
    + by rewrite list_lookup_insert_ne.
Qed.

(** [Swap] answers exactly for two indices within the list. It exchanges the
    two elements and touches no other, so the result is a rearrangement of
    the same length; swapping again restores the list; and [Less] on the
    swapped list at [(i, j)] is [Less] on the original at [(j, i)]. *)
Lemma Swap_spec (rs : reaction.List) (i j : nat) :
  (is_Some (reaction.Swap rs i j) ↔ (i < length rs)%nat ∧ (j < length rs)%nat) ∧
  ∀ rs', reaction.Swap rs i j = Some rs' →
    rs' !! i = rs !! j ∧ rs' !! j = rs !! i ∧
    (∀ k, k ≠ i → k ≠ j → rs' !! k = rs !! k) ∧
    rs' ≡ₚ rs ∧
    reaction.Len rs' = reaction.Len rs ∧
    reaction.Swap rs' i j = Some rs ∧
    reaction.Less rs' i j = reaction.Less rs j i.
Proof.
  split.
  - rewrite <- !lookup_lt_is_Some. unfold reaction.Swap. split.
    + destruct (rs !! j), (rs !! i); by intros [? ?].
    + intros [[x ->] [y ->]]. by eexists.
  - intros rs' Hswap.
    assert (rs' !! i = rs !! j) as Hi.
    { rewrite (Swap_lookup rs rs' i j i Hswap). by rewrite decide_True. }
    assert (rs' !! j = rs !! i) as Hj.
    { rewrite (Swap_lookup rs rs' i j j Hswap).
      destruct (decide (j = i)) as [->|]; [done|]. by rewrite decide_True. }
    assert (length rs' = length rs) as Hlen.
    { revert Hswap. unfold reaction.Swap.
      destruct (rs !! j), (rs !! i); try done.
      intros [= <-]. by rewrite !length_insert. }
    split_and!; try done.
    + intros k Hki Hkj. rewrite (Swap_lookup rs rs' i j k Hswap).
      by rewrite !decide_False.
    + apply Permutation_inj. split; [done|].
      exists (λ k, if decide (k = i) then j else if decide (k = j) then i else k).
      split; [|intros k; by apply Swap_lookup].
      intros k1 k2. repeat case_decide; congruence.
    + unfold reaction.Len, gonum.len. by rewrite Hlen.
    + unfold reaction.Swap at 1. rewrite Hi, Hj.
      unfold reaction.Swap in Hswap.
      destruct (rs !! j) as [b|] eqn:Hb; [|done].
      destruct (rs !! i) as [a|] eqn:Ha; [|done]. f_equal.
      apply list_eq. intros k.
      destruct (decide (k = j)) as [->|Hkj].
      * rewrite list_lookup_insert_eq; [done|].
        rewrite length_insert, Hlen. by eapply lookup_lt_Some.
      * rewrite list_lookup_insert_ne by done.
        destruct (decide (k = i)) as [->|Hki].
        -- rewrite list_lookup_insert_eq; [done|]. rewrite Hlen. by eapply lookup_lt_Some.
        -- rewrite list_lookup_insert_ne by done.
           rewrite (Swap_lookup rs rs' i j k); [by rewrite !decide_False|].
           unfold reaction.Swap. by rewrite Hb, Ha, Hswap.
    + unfold reaction.Less. by rewrite Hi, Hj.
Qed.

(** ** Reaction types and their identifiers *)

Lemma identifierOf_is_Some (t : N) :
  is_Some (reaction.identifierOf t) ↔ (reaction.TypeLike ≤ t ≤ reaction.TypeAngry)%N.
Proof.
  unfold reaction.TypeLike, reaction.TypeAngry. split.
  - intros [s Hs]. unfold reaction.identifierOf in Hs.
    apply elem_of_list_to_map_2 in Hs. revert Hs.
    unfold reaction.TypeToIdentifier, reaction.TypeLike, reaction.TypeLove,
      reaction.TypeHaha, reaction.TypeWow, reaction.TypeSad, reaction.TypeAngry.
    rewrite !elem_of_cons, elem_of_nil. intros H.
    repeat destruct H as [H|H]; try done; injection H as -> _; lia.
  - intros Ht.
    assert (t = 1 ∨ t = 2 ∨ t = 3 ∨ t = 4 ∨ t = 5 ∨ t = 6)%N as H by lia.
    repeat destruct H as [->|H]; try subst t; by eexists.
Qed.

(** A reaction with an object and an owner passes [Validate] exactly when
    [TypeToIdentifier] has an entry for its type; and no two types share an
    identifier. *)
Lemma Validate_identifier :
  (∀ r, reaction.Reaction.ObjectID r ≠ 0%N → reaction.Reaction.OwnerID r ≠ 0%N →
        (reaction.Validate r = None ↔
         is_Some (reaction.identifierOf (reaction.Reaction.Type_ r)))) ∧
  (∀ t1 t2 s, reaction.identifierOf t1 = Some s → reaction.identifierOf t2 = Some s →
              t1 = t2).
Proof.
  split.
  - intros r Hob Hon. rewrite identifierOf_is_Some.
    unfold reaction.Validate, reaction.TypeLike, reaction.TypeAngry.
    apply N.eqb_neq in Hob, Hon. rewrite Hob, Hon.
    destruct (N.ltb_spec (reaction.Reaction.Type_ r) 1); simpl; [split; [done|lia]|].
    destruct (N.ltb_spec 6 (reaction.Reaction.Type_ r)); [split; [done|lia]|].
    split; [lia|done].
  - intros t1 t2 s H1 H2.
    assert (reaction.TypeLike ≤ t1 ≤ reaction.TypeAngry)%N as Hr1
      by (apply identifierOf_is_Some; by eexists).
    assert (reaction.TypeLike ≤ t2 ≤ reaction.TypeAngry)%N as Hr2
      by (apply identifierOf_is_Some; by eexists).
    unfold reaction.TypeLike, reaction.TypeAngry in *.
    assert (t1 = 1 ∨ t1 = 2 ∨ t1 = 3 ∨ t1 = 4 ∨ t1 = 5 ∨ t1 = 6)%N as C1 by lia.
    assert (t2 = 1 ∨ t2 = 2 ∨ t2 = 3 ∨ t2 = 4 ∨ t2 = 5 ∨ t2 = 6)%N as C2 by lia.
    clear Hr1 Hr2. revert H1 H2.
    repeat destruct C1 as [->|C1]; try subst t1;
      repeat destruct C2 as [->|C2]; try subst t2;
      vm_compute; congruence.
Qed.

(** On a reaction of type "wow" with object and owner set. *)
Lemma Validate_identifier_witness :
  let r := {| reaction.Reaction.Deleted := false; reaction.Reaction.ID := 1;
              reaction.Reaction.ObjectID := 2; reaction.Reaction.OwnerID := 7;
              reaction.Reaction.Type_ := reaction.TypeWow;
              reaction.Reaction.CreatedAt := time.zero;
              reaction.Reaction.UpdatedAt := time.zero |} in
  reaction.Validate r = None ↔
  is_Some (reaction.identifierOf (reaction.Reaction.Type_ r)).
Proof. intros r. by apply (proj1 Validate_identifier r). Defined.

(** ** Flake namespaces *)

Lemma list_ascii_of_string_app (s t : string) :
  String.list_ascii_of_string (s +:+ t)
  = String.list_ascii_of_string s ++ String.list_ascii_of_string t.
Proof. induction s as [|a s IH]; simpl; [done|]. by rewrite IH. Qed.

Lemma string_app_inv_tail (s1 s2 t : string) : s1 +:+ t = s2 +:+ t → s1 = s2.
Proof.
  intros Heq. apply (f_equal String.list_ascii_of_string) in Heq.
  rewrite !list_ascii_of_string_app in Heq. apply app_inv_tail in Heq.
  apply (f_equal String.string_of_list_ascii) in Heq.
  by rewrite !String.string_of_list_ascii_of_string in Heq.
Qed.

(** Two different namespaces have different flake namespaces: tenants never
    share an id sequence. *)
Lemma flakeNamespace_inj (ns1 ns2 : string) :
  ns1 ≠ ns2 → reaction.flakeNamespace ns1 ≠ reaction.flakeNamespace ns2.
Proof.
  intros Hne Heq. apply Hne. unfold reaction.flakeNamespace in Heq.
  by apply string_app_inv_tail in Heq.
Qed.

Lemma flakeNamespace_inj_witness :
  reaction.flakeNamespace "app" ≠ reaction.flakeNamespace "app_reactions".
Proof. by apply flakeNamespace_inj. Defined.

(** ** [MatchOpts] *)

Lemma MatchOpts_true_iff (r : reaction.Reaction.t) (o : reaction.QueryOptions.t) :
  reaction.MatchOpts r (Some o) = true ↔
    spec.valueOption (reaction.Reaction.Deleted r) (reaction.QueryOptions.Deleted o) ∧
    spec.setOption (reaction.Reaction.Type_ r) (reaction.QueryOptions.Types o).
Proof.
  unfold reaction.MatchOpts. rewrite <- valueOption_spec.
  destruct (match reaction.QueryOptions.Deleted o with
            | Some d => negb (Bool.eqb (reaction.Reaction.Deleted r) d)
            | None => false end); [by split; [|intros []]|].
  unfold spec.setOption, gonum.len.
  destruct (reaction.QueryOptions.Types o) as [|t ts] eqn:Hts; [by split; auto|].
  replace (0 <? Z.of_nat (length (t :: ts))) with true
    by (symmetry; apply Z.ltb_lt; simpl; lia).
  destruct (reaction.typesLoop _ _ true) eqn:Hloop.
  - split; [done|]. intros [_ [?|Hin]]; [done|].
    apply typesLoop_spec in Hin. congruence.
  - apply typesLoop_spec in Hloop. by split; auto.
Qed.

(** [MatchOpts] reads [Types] as a set: two options with the same [Deleted]
    and the same types, in whatever order and however often repeated, keep
    the same reactions; a nil options pointer keeps every reaction. *)
Lemma MatchOpts_Types_as_set (r : reaction.Reaction.t) :
  reaction.MatchOpts r None = true ∧
  ∀ o1 o2,
    reaction.QueryOptions.Deleted o1 = reaction.QueryOptions.Deleted o2 →
    (∀ t, t ∈ reaction.QueryOptions.Types o1 ↔ t ∈ reaction.QueryOptions.Types o2) →
    reaction.MatchOpts r (Some o1) = reaction.MatchOpts r (Some o2).
Proof.
  split; [done|]. intros o1 o2 Hdel Hset.
  assert (reaction.MatchOpts r (Some o1) = true ↔ reaction.MatchOpts r (Some o2) = true)
    as Hiff.
  { rewrite !MatchOpts_true_iff, Hdel. unfold spec.setOption.
    assert (reaction.QueryOptions.Types o1 = [] ↔ reaction.QueryOptions.Types o2 = [])
      as Hnil.
    { split; intros Hn; apply elem_of_nil_inv; intros t Ht;
        apply Hset in Ht; rewrite Hn in Ht; by apply elem_of_nil in Ht. }
    by rewrite Hnil, Hset. }
  destruct (reaction.MatchOpts r (Some o1)), (reaction.MatchOpts r (Some o2));
    try done; [symmetry|]; by apply Hiff.
Qed.

(** ** [contains] *)

Lemma append_cons (a : Ascii.ascii) (s t : string) :
  String a s +:+ t = String a (s +:+ t).
Proof. reflexivity. Qed.

Lemma append_nil (t : string) : "" +:+ t = t.
Proof. reflexivity. Qed.

Lemma prefix_spec (t s : string) :
  String.prefix t s = true ↔ ∃ post, s = t +:+ post.
Proof.
  revert t. induction s as [|a s IH]; intros [|b t]; simpl.
  - split; [by exists ""|done].
  - split; [done|]. intros [post Hpost]. by rewrite append_cons in Hpost.
  - split; [by eexists|done].
  - destruct (Ascii.ascii_dec b a) as [->|Hne].
    + rewrite IH. split; intros [post Hpost]; exists post;
        rewrite append_cons in *; congruence.
    + split; [done|]. intros [post Hpost]. rewrite append_cons in Hpost. congruence.
Qed.

Lemma stringsContains_spec (s t : string) :
  golang.stringsContains s t = true ↔ occursIn t s.
Proof.
  unfold occursIn. induction s as [|a s IH].
  - cbn [golang.stringsContains]. destruct (String.prefix t "") eqn:Hp.
    + apply prefix_spec in Hp as [post Hpost]. split; [|done].
      intros _. by exists "", post.
    + split; [done|]. intros (pre & post & Heq).
      destruct pre; [|by rewrite append_cons in Heq]. rewrite append_nil in Heq.
      assert (String.prefix t "" = true) as Hp' by (apply prefix_spec; by exists post).
      congruence.
  - cbn [golang.stringsContains]. destruct (String.prefix t (String a s)) eqn:Hp.
    + apply prefix_spec in Hp as [post Hpost]. split; [|done].
      intros _. by exists "", post.
    + rewrite IH. split.
      * intros (pre & post & ->). by exists (String a pre), post.
      * intros ([|b pre] & post & Heq).
        -- rewrite append_nil in Heq.
           assert (String.prefix t (String a s) = true) as Hp'
             by (apply prefix_spec; by exists post).
           congruence.
        -- rewrite append_cons in Heq. injection Heq as _ ->. by exists pre, post.
Qed.

(** [contains(s, ts...)] holds exactly when no text is given or one of the
    given texts occurs in [s]; an empty text among them always does. *)
Lemma contains_spec (s : string) (ts : list string) :
  (user.contains s ts = true ↔ ts = [] ∨ ∃ t, t ∈ ts ∧ occursIn t s) ∧
  ("" ∈ ts → user.contains s ts = true).
Proof.
  assert (∀ l, user.containsLoop s l false = true ↔ ∃ t, t ∈ l ∧ occursIn t s) as Hloop.
  { induction l as [|t l IH]; simpl.
    - split; [done|]. by intros (t & ?%elem_of_nil & _).
    - destruct (golang.stringsContains s t) eqn:Ht.
      + split; [|done]. intros _. exists t. split; [by left|].
        by apply stringsContains_spec.
      + rewrite IH. split.
        * intros (t' & Hin & Hocc). exists t'. split; [by right|done].
        * intros (t' & [->|Hin]%elem_of_cons & Hocc); [|by exists t'].
          apply stringsContains_spec in Hocc. congruence. }
  assert (user.contains s ts = true ↔ ts = [] ∨ ∃ t, t ∈ ts ∧ occursIn t s) as Hspec.
  { unfold user.contains, gonum.len. destruct ts as [|t ts]; [by split; auto|].
    replace (Z.of_nat (length (t :: ts)) =? 0) with false
      by (symmetry; apply Z.eqb_neq; simpl; lia).
    rewrite Hloop. split; [auto|]. by intros [?|?]. }
  split; [done|]. intros Hin. apply Hspec. right. exists "".
  split; [done|]. by exists "", s.
Qed.

Lemma contains_spec_witness : user.contains "alice" ["bob"; ""] = true.
Proof. apply (contains_spec "alice" ["bob"; ""]). by right; left. Defined.

(** ** How the operations of the service compose *)

Lemma memService_eq (s1 s2 : user.memService) :
  user.users s1 = user.users s2 → s1 = s2.
Proof. destruct s1, s2; simpl. by intros ->. Qed.

Lemma bucketOf_store (ns ns' : string) (id : N) (u : user.User.t) (s : user.memService) :
  user.bucketOf (user.store ns id u (user.Setup ns s).2) ns'
  = if decide (ns = ns') then <[id := u]> (user.bucketOf s ns) else user.bucketOf s ns'.
Proof. apply bucketOf_insert, store_Setup_users. Qed.

Lemma entities_insert (k : N) (v : user.User.t) (b : user.Map) :
  entities (<[k := v]> b) ≡ₚ v :: entities (delete k b).
Proof.
  unfold entities. rewrite <- (insert_delete_eq b k v).
  by rewrite map_to_list_insert by apply lookup_delete_eq.
Qed.

Lemma entities_lookup (k : N) (v : user.User.t) (b : user.Map) :
  b !! k = Some v → entities b ≡ₚ v :: entities (delete k b).
Proof. intros Hk. unfold entities. by rewrite <- (map_to_list_delete b k v Hk). Qed.

Lemma elem_of_entities (v : user.User.t) (b : user.Map) :
  v ∈ entities b ↔ ∃ k, b !! k = Some v.
Proof.
  unfold entities. rewrite list_elem_of_fmap. split.
  - intros ([k v'] & -> & Hin%elem_of_map_to_list). by exists k.
  - intros [k Hk]. exists (k, v). by rewrite elem_of_map_to_list.
Qed.

Section Composition.

Import golang.

Context {RT : Runtime} {CO : user.Collaborators}.

Lemma Count_entities (ns : string) (opts : user.QueryOptions.t) (s : user.memService) :
  (user.Count ns opts s).1
  = serr.Ok (Z.of_nat (length (List.filter (user.filterKeep opts)
                                 (entities (user.bucketOf s ns))))).
Proof.
  unfold user.Count. rewrite (Setup_pair ns s). simpl.
  rewrite bucketOf_Setup, filterList_filter. unfold gonum.len. do 2 f_equal.
  apply Permutation_length, filter_bool_perm, ToList_perm.
Qed.

Lemma Query_fst (ns : string) (opts : user.QueryOptions.t) (s : user.memService) :
  (user.Query ns opts s).1
  = serr.Ok (let us := List.filter (user.filterKeep opts) (user.ToList (user.bucketOf s ns)) in
             if (0 <? user.QueryOptions.Limit opts)
                && (user.QueryOptions.Limit opts <? gonum.len us)
             then take (Z.to_nat (user.QueryOptions.Limit opts)) us else us).
Proof.
  unfold user.Query. rewrite (Setup_pair ns s). simpl.
  by rewrite bucketOf_Setup, filterList_filter.
Qed.

(** What [Put] can do: hand back an error and leave the state [Setup]
    leaves, or hand back a record and store it under its id. *)
Lemma Put_outcome (ns : string) (u : user.User.t) (clock : time.Time)
    (nextID : string → serr.error + N) (s : user.memService) :
  (∃ e, user.Put ns u clock nextID s = (serr.Err e, (user.Setup ns s).2)) ∨
  (∃ r, user.Put ns u clock nextID s
          = (serr.Ok r, user.store ns (user.User.ID r) r (user.Setup ns s).2) ∧
        user.User.UpdatedAt r = time.UTC clock ∧
        user.User.CustomID r = user.User.CustomID u ∧
        user.User.Deleted r = user.User.Deleted u ∧
        user.User.Email r = user.User.Email u ∧
        user.User.Enabled r = user.User.Enabled u ∧
        user.User.LastRead r = user.User.LastRead u ∧
        user.User.SocialIDs r = user.User.SocialIDs u ∧
        user.User.Username r = user.User.Username u ∧
        (user.User.ID u ≠ 0%N → user.User.ID r = user.User.ID u)).
Proof.
  unfold user.Put. rewrite (Setup_pair ns s), bucketOf_Setup.
  destruct (user.Validate u) as [e|]; [left; by exists e|].
  destruct (N.eqb_spec (user.User.ID u) 0) as [Hz|Hnz].
  - destruct (nextID _) as [e|id]; [left; by exists e|]. right.
    exists (user.User.setUpdatedAt
              (user.User.setID
                 (if time.IsZero (user.User.CreatedAt u)
                  then user.User.setCreatedAt u (time.UTC clock) else u) id)
              (time.UTC clock)).
    split; [reflexivity|].
    destruct (time.IsZero (user.User.CreatedAt u)); by split_and!.
  - pose proof (putLoop_spec (mapRange (user.bucketOf s ns)) u) as Hloop.
    destruct (fold_left user.putStep _ _) as [[] input]; simpl.
    + destruct Hloop as (kv & _ & _ & ->). right.
      exists (user.User.setUpdatedAt
                (user.User.setCreatedAt u (user.User.CreatedAt kv.2)) (time.UTC clock)).
      split; [reflexivity|]. by split_and!.
    + left. by eexists.
Qed.

(** Whenever [Put], called with a user, returns an error (from validation,
    from the id generator, or [ErrNotFound]), the state is the one [Setup]
    leaves: every bucket of every namespace holds what it held. *)
Lemma Put_error_frame (ns : string) (u : user.User.t) (clock : time.Time)
    (nextID : string → serr.error + N) (s : user.memService) (e : serr.error) :
  (user.Put ns u clock nextID s).1 = serr.Err e →
  (user.Put ns u clock nextID s).2 = (user.Setup ns s).2 ∧
  ∀ ns', user.bucketOf (user.Put ns u clock nextID s).2 ns' = user.bucketOf s ns'.
Proof.
  destruct (Put_outcome ns u clock nextID s) as [[e' ->]|(r & -> & _)]; simpl; [|done].
  intros _. split; [done|]. intros ns'. apply bucketOf_Setup.
Qed.

(** Whenever [Put] returns a record, that record is what the bucket holds
    under the record's id afterwards and no other entry of any bucket has
    changed; its update time is the clock's reading in UTC; and the fields the
    service does not manage are the caller's. *)
Lemma Put_ok_stored (ns : string) (u : user.User.t) (clock : time.Time)
    (nextID : string → serr.error + N) (s : user.memService) (r : user.User.t) :
  (user.Put ns u clock nextID s).1 = serr.Ok r →
  user.bucketOf (user.Put ns u clock nextID s).2 ns !! user.User.ID r = Some r ∧
  (∀ ns' k, ¬ (ns = ns' ∧ user.User.ID r = k) →
     user.bucketOf (user.Put ns u clock nextID s).2 ns' !! k = user.bucketOf s ns' !! k) ∧
  user.User.UpdatedAt r = time.UTC clock ∧
  user.User.CustomID r = user.User.CustomID u ∧
  user.User.Deleted r = user.User.Deleted u ∧
  user.User.Email r = user.User.Email u ∧
  user.User.Enabled r = user.User.Enabled u ∧
  user.User.LastRead r = user.User.LastRead u ∧
  user.User.SocialIDs r = user.User.SocialIDs u ∧
  user.User.Username r = user.User.Username u.
Proof.
  destruct (Put_outcome ns u clock nextID s) as [[e ->]|(r' & -> & Hr')]; [done|].
  simpl. intros [= <-]. destruct Hr' as (? & ? & ? & ? & ? & ? & ? & ? & _).
  split_and!; try done.
  - rewrite store_Setup_lookup. by rewrite decide_True.
  - intros ns' k Hne. rewrite store_Setup_lookup. by rewrite decide_False.
Qed.

Lemma filterKeep_onlyID (opts : user.QueryOptions.t) (id : N) (v : user.User.t) :
  onlyID opts id → (user.filterKeep opts v = true ↔ user.User.ID v = id).
Proof.
  intros (Hc & Hd & He & Hen & Hi & Hs & Hu & _).
  rewrite filterKeep_spec, Hc, Hd, He, Hen, Hi, Hs, Hu.
  unfold spec.setOption, spec.valueOption, spec.socialOption. split.
  - intros (_ & _ & _ & _ & [?|Hin] & _); [done|].
    by apply list_elem_of_singleton in Hin.
  - intros <-. split_and!; try (by left); try done. right. by left.
Qed.

(** Round trip: in a state that keeps every record under its own id, what
    [Put] returns is exactly what [Query] for the returned id, without any
    other constraint, finds afterwards: that one record and nothing else. *)
Lemma Put_then_Query (ns : string) (u : user.User.t) (clock : time.Time)
    (nextID : string → serr.error + N) (s : user.memService) (r : user.User.t)
    (opts : user.QueryOptions.t) :
  wellKeyed s →
  (user.Put ns u clock nextID s).1 = serr.Ok r →
  onlyID opts (user.User.ID r) →
  (user.Query ns opts (user.Put ns u clock nextID s).2).1 = serr.Ok [r].
Proof.
  intros Hwk Hput Hopts.
  destruct (Put_outcome ns u clock nextID s) as [[e He]|(r' & He & _)];
    rewrite He in Hput |- *; [done|].
  simpl in Hput. injection Hput as ->. simpl.
  rewrite Query_fst, bucketOf_store, decide_True by done.
  pose proof Hopts as (_ & _ & _ & _ & _ & _ & _ & Hlim).
  rewrite Hlim. simpl. f_equal. apply Permutation_singleton_r.
  rewrite (filter_bool_perm _ _ _ (ToList_perm _)).
  rewrite (filter_bool_perm _ _ _ (entities_insert _ _ _)). simpl.
  replace (user.filterKeep opts r) with true
    by (symmetry; by apply (filterKeep_onlyID opts (user.User.ID r))).
  assert (List.filter (user.filterKeep opts)
            (entities (delete (user.User.ID r) (user.bucketOf s ns))) = []) as ->; [|done].
  apply elem_of_nil_inv.
  intros v [[k Hk]%elem_of_entities Hv]%filter_bool_elem_of.
  apply (filterKeep_onlyID opts (user.User.ID r)) in Hv; [|done].
  destruct (decide (k = user.User.ID r)) as [->|Hne].
  - by rewrite lookup_delete_eq in Hk.
  - rewrite lookup_delete_ne in Hk by done. apply Hne.
    rewrite <- Hv. symmetry. by apply (Hwk ns).
Qed.

(** [Put] after [Put]: in a state that keeps every record under its own id,
    an update for the id of a record that [Put] has just returned succeeds
    and keeps that record's creation time, whatever creation time the update
    brings. *)
Lemma Put_then_update (ns : string) (u u' : user.User.t) (clock clock' : time.Time)
    (nextID nextID' : string → serr.error + N) (s : user.memService) (r : user.User.t) :
  wellKeyed s →
  (user.Put ns u clock nextID s).1 = serr.Ok r →
  user.User.ID r ≠ 0%N →
  user.Validate u' = None →
  user.User.ID u' = user.User.ID r →
  (user.Put ns u' clock' nextID' (user.Put ns u clock nextID s).2).1
  = serr.Ok (user.User.setUpdatedAt
               (user.User.setCreatedAt u' (user.User.CreatedAt r)) (time.UTC clock')).
Proof.
  intros Hwk Hput Hnz Hvalid Hid.
  destruct (Put_outcome ns u clock nextID s) as [[e He]|(r' & He & _)];
    rewrite He in Hput |- *; [done|].
  simpl in Hput. injection Hput as ->. simpl in *.
  pose proof (wellKeyed_store ns r s Hwk) as Hwk1.
  rewrite Put_update_unfold by (done || congruence).
  set (s1 := user.store ns (user.User.ID r) r (user.Setup ns s).2) in *.
  assert (user.bucketOf s1 ns !! user.User.ID r = Some r) as Hr.
  { unfold s1. rewrite store_Setup_lookup. by rewrite decide_True. }
  pose proof (putLoop_spec (mapRange (user.bucketOf s1 ns)) u') as Hloop.
  destruct (fold_left user.putStep _ _) as [[] input]; simpl.
  - destruct Hloop as ([k old] & Hin & Hold & ->). simpl in *.
    rewrite mapRange_perm in Hin. apply elem_of_map_to_list in Hin.
    assert (k = user.User.ID r) as -> by (rewrite <- Hid, <- Hold; symmetry; by apply (Hwk1 ns)).
    rewrite Hr in Hin. by injection Hin as <-.
  - destruct Hloop as [_ Hall]. exfalso.
    apply (Hall (user.User.ID r, r)); [|done].
    by rewrite mapRange_perm, elem_of_map_to_list.
Qed.

Lemma bucketOf_Teardown (ns ns' : string) (s : user.memService) :
  user.bucketOf (user.Teardown ns s).2 ns'
  = if decide (ns = ns') then ∅ else user.bucketOf s ns'.
Proof.
  unfold user.Teardown, user.bucketOf. rewrite !lookup_total_alt.
  destruct (user.users s !! ns) eqn:Hb; simpl.
  - destruct (decide (ns = ns')) as [<-|Hne].
    + by rewrite lookup_delete_eq.
    + by rewrite lookup_delete_ne.
  - destruct (decide (ns = ns')) as [<-|Hne]; [by rewrite Hb|done].
Qed.

Lemma PutLastRead_state (ns : string) (userID : N) (ts : time.Time) (s : user.memService) :
  (user.PutLastRead ns userID ts s).2 =
    match user.bucketOf s ns !! userID with
    | Some u => user.store ns userID (user.User.setLastRead u (time.UTC ts))
                  (user.Setup ns s).2
    | None => (user.Setup ns s).2
    end.
Proof.
  unfold user.PutLastRead. rewrite (Setup_pair ns s), bucketOf_Setup.
  by destruct (user.bucketOf s ns !! userID).
Qed.

(** Namespaces are independent: a [Put], a [PutLastRead], a [Setup] or a
    [Teardown] on one namespace changes no answer of [Count], [Query] or
    [Search] on another. *)
Lemma namespaces_independent (ns ns' : string) (s : user.memService) :
  ns ≠ ns' →
  (∀ u clock nextID, sameReads ns' (user.Put ns u clock nextID s).2 s) ∧
  (∀ userID ts, sameReads ns' (user.PutLastRead ns userID ts s).2 s) ∧
  sameReads ns' (user.Setup ns s).2 s ∧
  sameReads ns' (user.Teardown ns s).2 s.
Proof.
  intros Hne. split_and!.
  - intros u clock nextID. apply reads_bucket.
    destruct (Put_outcome ns u clock nextID s) as [[e ->]|(r & -> & _)]; simpl.
    + apply bucketOf_Setup.
    + rewrite bucketOf_store. by rewrite decide_False.
  - intros userID ts. apply reads_bucket. rewrite PutLastRead_state.
    destruct (user.bucketOf s ns !! userID).
    + rewrite bucketOf_store. by rewrite decide_False.
    + apply bucketOf_Setup.
  - apply reads_bucket, bucketOf_Setup.
  - apply reads_bucket. rewrite bucketOf_Teardown. by rewrite decide_False.
Qed.

(** [PutLastRead] changes no count: for every namespace and every filter,
    [Count] answers after it what it answered before. *)
Lemma PutLastRead_keeps_Count (ns : string) (userID : N) (ts : time.Time)
    (s : user.memService) (ns' : string) (opts : user.QueryOptions.t) :
  (user.Count ns' opts (user.PutLastRead ns userID ts s).2).1
  = (user.Count ns' opts s).1.
Proof.
  rewrite !Count_entities, PutLastRead_state.
  destruct (user.bucketOf s ns !! userID) as [u|] eqn:Hu;
    [|by rewrite bucketOf_Setup].
  rewrite bucketOf_store. case_decide as Hns; [subst ns'|done].
  do 2 f_equal.
  rewrite (Permutation_length (filter_bool_perm _ _ _ (entities_insert _ _ _))).
  rewrite (Permutation_length
             (filter_bool_perm _ (entities (user.bucketOf s ns)) _
                (entities_lookup _ _ _ Hu))).
  cbn [List.filter].
  change (user.filterKeep opts (user.User.setLastRead u (time.UTC ts)))
    with (user.filterKeep opts u).
  by destruct (user.filterKeep opts u).
Qed.

(** The last [PutLastRead] wins: marking a user twice leaves the state that
    the second mark alone leaves; in particular marking twice with the same
    time is marking once. *)
Lemma PutLastRead_last_wins (ns : string) (userID : N) (t1 t2 : time.Time)
    (s : user.memService) :
  (user.PutLastRead ns userID t2 (user.PutLastRead ns userID t1 s).2).2
  = (user.PutLastRead ns userID t2 s).2.
Proof.
  apply memService_eq. rewrite !PutLastRead_state.
  destruct (user.bucketOf s ns !! userID) as [u|] eqn:Hu.
  - rewrite store_Setup_lookup, decide_True by done.
    rewrite !store_Setup_users, bucketOf_store, decide_True by done.
    by rewrite !insert_insert_eq.
  - rewrite bucketOf_Setup, Hu.
    rewrite (Setup_present ns (user.Setup ns s).2); [done|].
    rewrite Setup_lookup. by eexists.
Qed.

Lemma ToList_empty : user.ToList ∅ = [].
Proof.
  apply Permutation_nil_r. rewrite ToList_perm. unfold entities.
  by rewrite map_to_list_empty.
Qed.

(** After [Teardown], and on a fresh service, the namespace reads as empty:
    [Count] is zero, [Query] returns no user, and [Search] for a text with
    limit and offset zero returns no user. *)
Lemma Teardown_reads_empty (ns : string) (opts : user.QueryOptions.t) (s : user.memService) :
  sameReads ns (user.Teardown ns s).2 user.MemService ∧
  (user.Count ns opts (user.Teardown ns s).2).1 = serr.Ok 0 ∧
  (user.Query ns opts (user.Teardown ns s).2).1 = serr.Ok [] ∧
  (user.QueryOptions.Query opts ≠ "" →
   user.QueryOptions.Limit opts = 0 → user.QueryOptions.Offset opts = 0 →
   (user.Search ns opts (user.Teardown ns s).2).1 = serr.Ok []).
Proof.
  assert (user.bucketOf (user.Teardown ns s).2 ns = ∅) as Hb
    by (rewrite bucketOf_Teardown; by rewrite decide_True).
  split_and!.
  - apply reads_bucket. rewrite Hb. unfold user.bucketOf. simpl.
    by rewrite lookup_total_empty.
  - rewrite Count_entities, Hb. unfold entities. by rewrite map_to_list_empty.
  - rewrite Query_fst, Hb, ToList_empty. cbn [List.filter].
    destruct (_ && _); [by rewrite take_nil|done].
  - intros Hq Hlim Hoff. rewrite (Search_unfold ns opts _ Hq).
    unfold candidates, offsetOf, ranked. rewrite Hb, ToList_empty, Hlim, Hoff. done.
Qed.

End Composition.

(** ** Paging and ranking *)

Lemma filter_bool_sublist {A} (P : A → bool) (l : list A) :
  List.filter P l `sublist_of` l.
Proof.
  induction l as [|x l IH]; simpl; [done|].
  destruct (P x); by constructor.
Qed.

Lemma filter_bool_comm {A} (P Q : A → bool) (l : list A) :
  List.filter P (List.filter Q l) = List.filter Q (List.filter P l).
Proof.
  induction l as [|x l IH]; simpl; [done|].
  destruct (P x) eqn:HP, (Q x) eqn:HQ; simpl; rewrite ?HP, ?HQ, ?IH; done.
Qed.

Lemma filter_bool_idem {A} (P : A → bool) (l : list A) :
  List.filter P (List.filter P l) = List.filter P l.
Proof.
  induction l as [|x l IH]; simpl; [done|].
  destruct (P x) eqn:HP; simpl; rewrite ?HP, ?IH; done.
Qed.

(** What [filterList] keeps does not depend on the order in which the
    runtime walks the [SocialIDs] map of the options. *)
Lemma filterList_any_order (R1 R2 : golang.Runtime) (us : user.List)
    (opts : user.QueryOptions.t) :
  user.filterList (RT := R1) us opts = user.filterList (RT := R2) us opts.
Proof.
  rewrite !filterList_filter. apply List.filter_ext. intros u.
  pose proof (filterKeep_spec (RT := R1) opts u) as H1.
  pose proof (filterKeep_spec (RT := R2) opts u) as H2.
  destruct (user.filterKeep (RT := R1) opts u), (user.filterKeep (RT := R2) opts u);
    try done.
  - symmetry. apply H2, H1. done.
  - apply H1, H2. done.
Qed.

Section Paging.

Import golang.

Context {RT : Runtime} {CO : user.Collaborators}.

(** [filterList] judges every user on its own: it keeps the order of the
    list, filters a concatenation part by part, changes nothing when applied
    a second time, and two filters can be applied in either order. *)
Lemma filterList_algebra (us1 us2 : user.List) (opts opts' : user.QueryOptions.t) :
  user.filterList us1 opts `sublist_of` us1 ∧
  user.filterList (us1 ++ us2) opts
    = user.filterList us1 opts ++ user.filterList us2 opts ∧
  user.filterList (user.filterList us1 opts) opts = user.filterList us1 opts ∧
  user.filterList (user.filterList us1 opts) opts'
    = user.filterList (user.filterList us1 opts') opts.
Proof.
  rewrite !filterList_filter. split_and!.
  - apply filter_bool_sublist.
  - apply List.filter_app.
  - apply filter_bool_idem.
  - apply filter_bool_comm.
Qed.

(** Paging of [Query]: a positive limit returns the first [Limit] users of
    what the same query returns without a limit, a limit that is zero or
    negative returns all of them; so the number of users returned is the
    smaller of [Limit] and [Count] in the first case and [Count] in the
    second. *)
Lemma Query_paging (ns : string) (opts : user.QueryOptions.t) (s : user.memService) :
  ∃ all : list user.User.t,
    (user.Query ns (unlimited opts) s).1 = serr.Ok all ∧
    (user.Count ns opts s).1 = serr.Ok (gonum.len all) ∧
    (user.Query ns opts s).1 =
      serr.Ok (if 0 <? user.QueryOptions.Limit opts
               then take (Z.to_nat (user.QueryOptions.Limit opts)) all else all) ∧
    ∀ l, (user.Query ns opts s).1 = serr.Ok l →
         gonum.len l = if 0 <? user.QueryOptions.Limit opts
                       then Z.min (user.QueryOptions.Limit opts) (gonum.len all)
                       else gonum.len all.
Proof.
  exists (List.filter (user.filterKeep opts) (user.ToList (user.bucketOf s ns))).
  set (all := List.filter _ _).
  assert ((user.Query ns opts s).1 =
            serr.Ok (if 0 <? user.QueryOptions.Limit opts
                     then take (Z.to_nat (user.QueryOptions.Limit opts)) all else all))
    as HQ.
  { rewrite Query_fst. fold all. cbv zeta. f_equal.
    destruct (Z.ltb_spec 0 (user.QueryOptions.Limit opts)); [|done]. simpl.
    destruct (Z.ltb_spec (user.QueryOptions.Limit opts) (gonum.len all)); [done|].
    symmetry. apply take_ge. unfold gonum.len in *. lia. }
  split_and!.
  - rewrite Query_fst. done.
  - unfold user.Count. rewrite (Setup_pair ns s). simpl.
    by rewrite bucketOf_Setup, filterList_filter.
  - exact HQ.
  - intros l. rewrite HQ. intros [= <-]. unfold gonum.len.
    destruct (Z.ltb_spec 0 (user.QueryOptions.Limit opts)); [|done].
    rewrite length_take. lia.
Qed.

(** [Search] with limit and offset zero returns every user of the bucket,
    each once: neither the distance to the query text (the threshold of 8
    the code computes is not applied) nor any filter option leaves a user
    out. *)
Lemma Search_returns_all (ns : string) (opts : user.QueryOptions.t) (s : user.memService) :
  user.QueryOptions.Query opts ≠ "" →
  user.QueryOptions.Limit opts = 0 → user.QueryOptions.Offset opts = 0 →
  ∃ l, (user.Search ns opts s).1 = serr.Ok (Some <$> l) ∧
       l ≡ₚ entities (user.bucketOf s ns).
Proof.
  intros Hq Hlim Hoff. exists (ranked ns opts s). split.
  - rewrite (Search_unfold ns opts s Hq).
    unfold offsetOf, gonum.int_of_uint. rewrite Hlim, Hoff. simpl.
    pose proof (candidates_nonneg ns opts s).
    rewrite wrap_int_small by lia.
    by destruct (Z.ltb_spec (candidates ns opts s) 0); [lia|].
  - unfold ranked. by rewrite SliceStable_perm, ToList_perm.
Qed.

(** A page of [Search] has exactly [Limit] entries: whenever a search with
    an offset within the candidates, and limit and offset not both zero,
    returns a list, the list is [Limit] long (nil entries included), the
    offset is not negative and the page ends within the capacity. *)
Lemma Search_page_length (ns : string) (opts : user.QueryOptions.t) (s : user.memService)
    (l : list (option user.User.t)) :
  user.QueryOptions.Query opts ≠ "" →
  ¬ (user.QueryOptions.Limit opts = 0 ∧ user.QueryOptions.Offset opts = 0) →
  offsetOf opts ≤ candidates ns opts s →
  - 2 ^ 63 ≤ user.QueryOptions.Limit opts < 2 ^ 63 →
  (user.Search ns opts s).1 = serr.Ok l →
  Z.of_nat (length l) = user.QueryOptions.Limit opts ∧
  0 ≤ offsetOf opts ∧
  offsetOf opts + user.QueryOptions.Limit opts ≤ capacity ns opts s.
Proof.
  intros Hq Hn Hoff Hlim. rewrite (Search_unfold ns opts s Hq).
  destruct (Z.ltb_spec (candidates ns opts s) (offsetOf opts)); [lia|].
  replace ((user.QueryOptions.Limit opts =? 0) && (user.QueryOptions.Offset opts =? 0))
    with false.
  2:{ symmetry. apply andb_false_iff.
      destruct (Z.eqb_spec (user.QueryOptions.Limit opts) 0); [|auto].
      destruct (Z.eqb_spec (user.QueryOptions.Offset opts) 0); [|auto].
      by destruct Hn. }
  pose proof (wrap_int_range (user.QueryOptions.Offset opts)) as Hr.
  fold (gonum.int_of_uint (user.QueryOptions.Offset opts)) in Hr.
  fold (offsetOf opts) in Hr.
  pose proof (appendCap_ge (length (ranked ns opts s))) as Hcap.
  unfold sliceExpr, capacity, gonum.int_add.
  destruct (Z.leb_spec 0 (offsetOf opts)) as [Hlo|]; [|done].
  assert (gonum.wrap_int (offsetOf opts + user.QueryOptions.Limit opts)
          = offsetOf opts + user.QueryOptions.Limit opts
          ∨ gonum.wrap_int (offsetOf opts + user.QueryOptions.Limit opts) < 0) as [->|Hneg].
  { destruct (Z.lt_ge_cases (offsetOf opts + user.QueryOptions.Limit opts) (2 ^ 63)).
    - left. apply wrap_int_small. lia.
    - right. rewrite wrap_int_over by lia. lia. }
  - destruct (Z.leb_spec (offsetOf opts) (offsetOf opts + user.QueryOptions.Limit opts));
      [|done].
    destruct (Z.leb_spec (offsetOf opts + user.QueryOptions.Limit opts)
                (Z.of_nat (appendCap (length (ranked ns opts s))))); [|done].
    cbn [andb]. intros [= <-]. split_and!; [|done|done].
    rewrite length_take, length_drop, length_app, length_fmap, length_replicate. lia.
  - destruct (Z.leb_spec (offsetOf opts)
                (gonum.wrap_int (offsetOf opts + user.QueryOptions.Limit opts))); [lia|done].
Qed.

End Paging.

(** ** The further properties on the sample data *)

Lemma sample_wellKeyed : wellKeyed sample.state.
Proof.
  intros ns k v. destruct (decide (ns = "app")) as [->|Hne].
  - intros Hkv. by destruct (sample_keys k v Hkv).
  - unfold user.bucketOf. rewrite lookup_total_alt. simpl.
    rewrite lookup_singleton_ne by done. simpl. by rewrite lookup_empty.
Qed.

(** A first [Put] of carol on the sample state: the bucket then holds the
    returned record under the new id 9. *)
Lemma Put_ok_stored_witness :
  user.bucketOf
    (user.Put (RT := refRuntime) (CO := refCollaborators)
       "app" (sample.mkUser 0 "carol" 0 0) sample.clock sample.nextID sample.state).2
    "app" !! 9%N = Some (sample.mkUser 9 "carol" 99 99).
Proof.
  exact (proj1 (Put_ok_stored (RT := refRuntime) (CO := refCollaborators)
                  "app" (sample.mkUser 0 "carol" 0 0) sample.clock sample.nextID
                  sample.state (sample.mkUser 9 "carol" 99 99) eq_refl)).
Defined.

(** After that [Put], the query for id 9 finds carol and nobody else. *)
Lemma Put_then_Query_witness :
  (user.Query (RT := refRuntime) "app" (sample.byID 9)
     (user.Put (RT := refRuntime) (CO := refCollaborators)
        "app" (sample.mkUser 0 "carol" 0 0) sample.clock sample.nextID sample.state).2).1
  = serr.Ok [sample.mkUser 9 "carol" 99 99].
Proof.
  apply (Put_then_Query (RT := refRuntime) (CO := refCollaborators)
           "app" (sample.mkUser 0 "carol" 0 0) sample.clock sample.nextID sample.state
           (sample.mkUser 9 "carol" 99 99) (sample.byID 9)).
  - apply sample_wellKeyed.
  - reflexivity.
  - by repeat split.
Defined.

(** After that [Put], an update of id 9 that brings the creation time 1234
    is stored with carol's creation time 99. *)
Lemma Put_then_update_witness :
  (user.Put (RT := refRuntime) (CO := refCollaborators)
     "app" (sample.mkUser 9 "caroline" 1234 0) (sample.at_ 150) sample.nextID
     (user.Put (RT := refRuntime) (CO := refCollaborators)
        "app" (sample.mkUser 0 "carol" 0 0) sample.clock sample.nextID sample.state).2).1
  = serr.Ok (sample.mkUser 9 "caroline" 99 150).
Proof.
  apply (Put_then_update (RT := refRuntime) (CO := refCollaborators)
           "app" (sample.mkUser 0 "carol" 0 0) (sample.mkUser 9 "caroline" 1234 0)
           sample.clock (sample.at_ 150) sample.nextID sample.nextID sample.state
           (sample.mkUser 9 "carol" 99 99));
    [apply sample_wellKeyed|reflexivity|done|reflexivity|reflexivity].
Defined.

(** A [Put] into "app" changes no read of "shop". *)
Lemma namespaces_independent_witness :
  sameReads (RT := refRuntime) (CO := refCollaborators) "shop"
    (user.Put (RT := refRuntime) (CO := refCollaborators)
       "app" (sample.mkUser 0 "carol" 0 0) sample.clock sample.nextID sample.state).2
    sample.state.
Proof.
  apply (namespaces_independent (RT := refRuntime) (CO := refCollaborators)
           "app" "shop" sample.state); done.
Defined.

(** The search for "zzzzzzzzzzzz", at a distance of 12 or more from every
    name, still returns the three users of the sample state. *)
Lemma Search_returns_all_witness :
  ∃ l, (user.Search (RT := refRuntime) (CO := refCollaborators)
          "app" (sample.page "zzzzzzzzzzzz" 0 0) sample.state).1 = serr.Ok (Some <$> l) ∧
       l ≡ₚ entities (user.bucketOf sample.state "app").
Proof.
  apply (Search_returns_all (RT := refRuntime) (CO := refCollaborators)
           "app" (sample.page "zzzzzzzzzzzz" 0 0) sample.state); done.
Defined.

(** A page of four on the three sample users has four entries. *)
Lemma Search_page_length_witness :
  Z.of_nat (length [Some sample.alice; Some sample.bob; Some sample.alicia; None]) = 4.
Proof.
  apply (Search_page_length (RT := refRuntime) (CO := refCollaborators)
           "app" (sample.page "ali" 4 0) sample.state
           [Some sample.alice; Some sample.bob; Some sample.alicia; None]);
    [done|by intros [? _]|by vm_compute|by vm_compute|by vm_compute].
Defined.

(** An update for the unknown id 8 fails, and the sample state is as it was. *)
Lemma Put_error_frame_witness :
  (user.Put (RT := refRuntime) (CO := refCollaborators)
     "app" (sample.mkUser 8 "eve" 1 1) sample.clock sample.nextID sample.state).2
  = sample.state.
Proof.
  exact (proj1 (Put_error_frame (RT := refRuntime) (CO := refCollaborators)
                  "app" (sample.mkUser 8 "eve" 1 1) sample.clock sample.nextID
                  sample.state serr.ErrNotFound eq_refl)).
Defined.
